(** * Checkpoint evaluation script [eval.py]: model and properties

    The script parses its command line, loads a tokenizer, a benchmark
    table and a base model, and then, for every adapter checkpoint, writes
    a result table with one row per generated sequence unless that table
    is already on disk.

    Python strings are sequences of Unicode code points, the file system
    is a finite map from paths to CSV tables, and the tokenizer and the
    text generation engine are an abstract, stateful environment whose
    calls may raise. *)

From Stdlib Require Import String Ascii NArith List Lia.
From stdpp Require Import gmap list strings pretty.

(** ** Python strings *)

Module PyStr.

(** A [str] is a sequence of code points. *)
Definition char := N.
Definition str := list N.

(** ASCII literal as a [str]. *)
Definition u (s : string) : str := N_of_ascii <$> list_ascii_of_string s.
Arguments u s%_string.

(** [s.startswith(p)] *)
Fixpoint startswith (p s : str) : bool :=
  match p, s with
  | [], _ => true
  | _ :: _, [] => false
  | a :: p', b :: s' => if N.eqb a b then startswith p' s' else false
  end.

(** [s.find(sub)]: index of the leftmost occurrence, [None] for -1. *)
Fixpoint find (sub s : str) : option nat :=
  if startswith sub s then Some 0
  else match s with
       | [] => None
       | _ :: s' => S <$> find sub s'
       end.

(** [sub in s] *)
Definition contains (sub s : str) : bool :=
  match find sub s with Some _ => true | None => false end.

(** [s.split(sep, 1)] for a non-empty [sep]: cut at the leftmost
    occurrence, or the whole string in a one-element list. *)
Definition split1 (sep s : str) : list str :=
  match find sep s with
  | Some i => [take i s; drop (i + length sep) s]
  | None => [s]
  end.

(** Left-to-right scan of [s.replace(old, new)] for a non-empty [old]:
    [skip] counts the characters of the current match still to be passed
    over. *)
Fixpoint replace_scan (old new : str) (skip : nat) (s : str) : str :=
  match s with
  | [] => []
  | c :: s' =>
      match skip with
      | S k => replace_scan old new k s'
      | O =>
          if startswith old s
          then new ++ replace_scan old new (length old - 1) s'
          else c :: replace_scan old new 0 s'
      end
  end.

(** [s.replace(old, new)]: every non-overlapping occurrence found from
    the left; an empty [old] matches before every character and at the
    end. *)
Definition replace (s old new : str) : str :=
  match old with
  | [] => new ++ flat_map (fun c => c :: new) s
  | _ :: _ => replace_scan old new 0 s
  end.

(** [c.isspace()] for a single code point. *)
Definition isspace (c : char) : bool :=
  ((9 <=? c) && (c <=? 13) || (28 <=? c) && (c <=? 32)
   || (c =? 133) || (c =? 160) || (c =? 5760)
   || (8192 <=? c) && (c <=? 8202)
   || (c =? 8232) || (c =? 8233) || (c =? 8239) || (c =? 8287)
   || (c =? 12288))%N.

(** [s.lstrip()], [s.rstrip()], [s.strip()] *)
Fixpoint lstrip (s : str) : str :=
  match s with
  | [] => []
  | c :: s' => if isspace c then lstrip s' else s
  end.

Definition rstrip (s : str) : str := rev (lstrip (rev s)).

Definition strip (s : str) : str := rstrip (lstrip s).

(** [str(n)] for a length. *)
Definition str_of_nat (n : nat) : str := u (pretty n).

End PyStr.

Export PyStr.

(** ** Prompt template and response extraction *)

(** The response marker and the textual sequence markers. *)
Definition INST_CLOSE : str := u "[/INST]".
Definition BOS : str := u "<s>".
Definition EOS : str := u "</s>".

(** [generate_prompt(instruction, input)]; [input] is unused. *)
Definition generate_prompt (instruction : str) : str :=
  u "[INST] " ++ instruction ++ u " [/INST]".

(** What the body of the sequence loop does with a decoded text. *)
Inductive Extracted :=
| Response (hypothesis : str)
| NoResponse
| UnpackFailure.

Definition extract (output : str) : Extracted :=
  if contains INST_CLOSE output then
    match split1 INST_CLOSE output with
    | [_; output'] => Response (strip (replace (replace output' BOS []) EOS []))
    | _ => UnpackFailure
    end
  else NoResponse.

(** ** Command line *)

(** The attributes of the namespace returned by [parser.parse_args()].
    [checkpoints] is [None] when the option does not occur. *)
Record Namespace := mkNamespace {
  base_model : str;
  checkpoints : option (list str);
  output_dir : str;
  dataset : str;
  preset : str
}.

Definition PRESET_CHOICES : list str :=
  [u "greedy"; u "beam25"; u "beam15"; u "beam10"].

(** The declared defaults; [--checkpoints] has none. *)
Definition defaults : Namespace :=
  {| base_model := u "mistralai/Mistral-7B-v0.1";
     checkpoints := None;
     output_dir := u "eval";
     dataset := u "data/flores_eng_ukr_major.csv";
     preset := u "greedy" |}.

(** Destinations of the options that take exactly one value. *)
Inductive Dest := DBaseModel | DOutputDir | DDataset | DPreset.

(** What the parser expects next: nothing, the single value of an option,
    or further values of [--checkpoints] (declared with [nargs="*"]). *)
Inductive Mode := Idle | ExpectOne (d : Dest) | Collect.

(** Outcome of parsing: a namespace, a usage error (exit status 2), or
    the help text (exit status 0). *)
Inductive Parse := Parsed (ns : Namespace) | UsageError | HelpExit.

(** A token read as an option string: it starts with ["-"] and is longer
    than one character. *)
Definition option_like (a : str) : bool :=
  startswith (u "-") a && (1 <? length a).

(** Store one value; [--preset] checks it against its choices. *)
Definition store (d : Dest) (v : str) (ns : Namespace) : option Namespace :=
  match d with
  | DBaseModel =>
      Some (mkNamespace v (checkpoints ns) (output_dir ns) (dataset ns) (preset ns))
  | DOutputDir =>
      Some (mkNamespace (base_model ns) (checkpoints ns) v (dataset ns) (preset ns))
  | DDataset =>
      Some (mkNamespace (base_model ns) (checkpoints ns) (output_dir ns) v (preset ns))
  | DPreset =>
      if bool_decide (v ∈ PRESET_CHOICES)
      then Some (mkNamespace (base_model ns) (checkpoints ns) (output_dir ns)
                   (dataset ns) v)
      else None
  end.

Definition set_checkpoints (cs : option (list str)) (ns : Namespace) : Namespace :=
  mkNamespace (base_model ns) cs (output_dir ns) (dataset ns) (preset ns).

Definition add_checkpoint (c : str) (ns : Namespace) : Namespace :=
  set_checkpoints (Some (default [] (checkpoints ns) ++ [c])) ns.

(** The parser for the five declared options and the help option, on the
    fragment of the argparse syntax in which an option is written with
    its full name and its values are the tokens that follow it
    (abbreviated names, [--name=value] and values that start with ["-"]
    are outside the fragment and are read as unknown options).  A token
    that is neither a declared option nor a value of one is remembered in
    [extras] and makes the parse fail at the end; a later occurrence of
    an option replaces an earlier one. *)
Fixpoint parse_loop (argv : list str) (mode : Mode) (extras : bool)
    (ns : Namespace) : Parse :=
  match argv with
  | [] =>
      match mode with
      | ExpectOne _ => UsageError
      | _ => if extras then UsageError else Parsed ns
      end
  | a :: rest =>
      if option_like a then
        match mode with
        | ExpectOne _ => UsageError
        | _ =>
            if bool_decide (a = u "--base_model") then
              parse_loop rest (ExpectOne DBaseModel) extras ns
            else if bool_decide (a = u "--checkpoints") then
              parse_loop rest Collect extras (set_checkpoints (Some []) ns)
            else if bool_decide (a = u "--output-dir") then
              parse_loop rest (ExpectOne DOutputDir) extras ns
            else if bool_decide (a = u "--dataset") then
              parse_loop rest (ExpectOne DDataset) extras ns
            else if bool_decide (a = u "--preset") then
              parse_loop rest (ExpectOne DPreset) extras ns
            else if bool_decide (a = u "-h") || bool_decide (a = u "--help") then
              HelpExit
            else parse_loop rest Idle true ns
        end
      else
        match mode with
        | Idle => parse_loop rest Idle true ns
        | ExpectOne d =>
            match store d a ns with
            | Some ns' => parse_loop rest Idle extras ns'
            | None => UsageError
            end
        | Collect => parse_loop rest Collect extras (add_checkpoint a ns)
        end
  end.

(** [parser.parse_args()] on [sys.argv[1:]]. *)
Definition parse_args (argv : list str) : Parse :=
  parse_loop argv Idle false defaults.

(** The beam count chosen from the preset before the example loop. *)
Definition beams_of (p : str) : nat :=
  if bool_decide (p = u "beam25") then 25
  else if bool_decide (p = u "beam15") then 15
  else if bool_decide (p = u "beam10") then 10
  else 1.

(** ** Environment: tokenizer, generation engine, files *)

(** [GenerationConfig(pad_token_id=..., num_beams=...)] *)
Record GenerationConfig := mkGenerationConfig {
  pad_token_id : Z;
  num_beams : nat
}.

(** The tokenizer and model libraries.  A call that runs library code on
    models or devices takes the library's state, may change it, and
    returns a value or raises. *)
Record Env := mkEnv {
  Tokenizer : Type;
  Model : Type;
  Tokens : Type;
  EngineState : Type;
  EngineError : Type;
  tokenizer_from_pretrained :
    str -> EngineState -> (EngineError + Tokenizer) * EngineState;
  tokenize :
    Tokenizer -> str -> EngineState -> (EngineError + Tokens) * EngineState;
  decode : Tokenizer -> Tokens -> str;
  eos_token_id : Tokenizer -> Z;
  model_from_pretrained :
    str -> EngineState -> (EngineError + Model) * EngineState;
  peft_from_pretrained :
    Model -> str -> EngineState -> (EngineError + Model) * EngineState;
  merge_and_unload :
    Model -> EngineState -> (EngineError + Model) * EngineState;
  half :
    Model -> EngineState -> (EngineError + Model) * EngineState;
  cuda :
    Model -> EngineState -> (EngineError + Model) * EngineState;
  generate :
    Model -> Tokens -> nat -> GenerationConfig -> EngineState ->
    (EngineError + list Tokens) * EngineState
}.

(** A CSV file as its sequence of records. *)
Definition Table := list (list str).

Inductive Level := INFO | WARNING.

Section Program.

Context (E : Env).

(** The library calls the script makes, in order, with what a generation
    call returned. *)
Inductive Event :=
| EvTokenizerFromPretrained (name : str)
| EvTokenize (text : str)
| EvModelFromPretrained (name : str)
| EvPeftFromPretrained (base : Model E) (checkpoint : str)
| EvMergeAndUnload (m : Model E)
| EvHalf (m : Model E)
| EvCuda (m : Model E)
| EvGenerate (m : Model E) (ids : Tokens E) (max_new_tokens : nat)
    (cfg : GenerationConfig) (outcome : EngineError E + list (Tokens E)).

Inductive Exn :=
| SystemExit (code : nat)
| TypeError
| KeyError (key : str)
| FileNotFoundError (path : str)
| ValueError
| EngineRaised (e : EngineError E).

Record World := mkWorld {
  fs : gmap str Table;
  log : list (Level * str);
  stdout : list str;
  calls : list Event;
  engine : EngineState E
}.

(** Computations of the script: state passing with exceptions. *)
Definition M (A : Type) : Type := World -> (Exn + A) * World.

Definition ret {A} (a : A) : M A := fun w => (inr a, w).

Definition raise {A} (e : Exn) : M A := fun w => (inl e, w).

Definition bind {A B} (m : M A) (k : A -> M B) : M B :=
  fun w =>
    match m w with
    | (inr a, w') => k a w'
    | (inl e, w') => (inl e, w')
    end.

Notation "'do' x <- m ; k" := (bind m (fun x => k))
  (at level 10, x name, m at level 100, k at level 200).
Notation "m ;; k" := (bind m (fun _ => k))
  (at level 100, k at level 200, right associativity).

(** [for x in l: body(x)] *)
Fixpoint for_each {A} (l : list A) (body : A -> M unit) : M unit :=
  match l with
  | [] => ret tt
  | x :: l' => body x ;; for_each l' body
  end.

(** [[f(x) for x in l]], built by appending in a loop. *)
Fixpoint map_each {A B} (l : list A) (f : A -> M B) : M (list B) :=
  match l with
  | [] => ret []
  | x :: l' => do y <- f x; do ys <- map_each l' f; ret (y :: ys)
  end.

Definition logger (lvl : Level) (msg : str) : M unit :=
  fun w =>
    (inr tt, mkWorld (fs w) (log w ++ [(lvl, msg)]) (stdout w) (calls w) (engine w)).

Definition print (line : str) : M unit :=
  fun w =>
    (inr tt, mkWorld (fs w) (log w) (stdout w ++ [line]) (calls w) (engine w)).

(** A library call: run it on the library state and record it. *)
Definition external {A} (f : EngineState E -> (EngineError E + A) * EngineState E)
    (ev : EngineError E + A -> Event) : M A :=
  fun w =>
    let '(r, s) := f (engine w) in
    let w' := mkWorld (fs w) (log w) (stdout w) (calls w ++ [ev r]) s in
    match r with
    | inr a => (inr a, w')
    | inl e => (inl (EngineRaised e), w')
    end.

(** [os.path.exists(p)] *)
Definition path_exists (p : str) : M bool :=
  fun w => (inr (bool_decide (is_Some (fs w !! p))), w).

(** [open(p, "r")] followed by reading the records. *)
Definition open_read (p : str) : M Table :=
  fun w =>
    match fs w !! p with
    | Some t => (inr t, w)
    | None => (inl (FileNotFoundError p), w)
    end.

(** [open(p, "w")]: the file is created or truncated. *)
Definition open_write (p : str) : M unit :=
  fun w =>
    (inr tt, mkWorld (<[p := []]> (fs w)) (log w) (stdout w) (calls w) (engine w)).

(** One record written through the writer of the file opened at [p]. *)
Definition write_record (p : str) (r : list str) : M unit :=
  fun w =>
    (inr tt, mkWorld (alter (fun t => t ++ [r]) p (fs w)) (log w) (stdout w)
               (calls w) (engine w)).

(** ** Loading the benchmark *)

(** The rows [csv.DictReader] yields: the first record names the columns,
    blank records are skipped, a repeated column name keeps its last
    value.  Records are taken to have a field for every column. *)
Definition dict_reader (t : Table) : list (gmap str str) :=
  match t with
  | [] => []
  | header :: rows =>
      (fun r => list_to_map (reverse (zip header r)))
        <$> filter (fun r => r ≠ []) rows
  end.

(** [d[key]] *)
Definition getitem (d : gmap str str) (key : str) : M str :=
  match d !! key with
  | Some v => ret v
  | None => raise (KeyError key)
  end.

Record Example := mkExample {
  ex_id : str;
  orig : str;
  trans : str;
  prompt : str;
  input_ids : Tokens E
}.

(** Body of the loop over the rows of the reader. *)
Definition load_row (tokenizer : Tokenizer E) (d : gmap str str) : M Example :=
  do src <- getitem d (u "sentence_eng_Latn");
  let prompt := generate_prompt src in
  do ids <- external (tokenize E tokenizer prompt) (fun _ => EvTokenize prompt);
  do i <- getitem d (u "id");
  do o <- getitem d (u "sentence_eng_Latn");
  do t <- getitem d (u "sentence_ukr_Cyrl");
  ret (mkExample i o t prompt ids).

(** ** Evaluating one checkpoint *)

Definition FIELDNAMES : list str :=
  [u "id"; u "source"; u "reference"; u "hypothesis"].

Definition output_file (args : Namespace) (checkpoint : str) : str :=
  let checkpoint_slug := replace checkpoint (u "/") (u "-") in
  output_dir args ++ u "/" ++ checkpoint_slug ++ u "." ++ preset args ++ u ".csv".

(** Body of the loop over the sequences of one generation. *)
Definition process_sequence (tokenizer : Tokenizer E) (out : str) (example : Example)
    (s : Tokens E) : M unit :=
  let output := decode E tokenizer s in
  do output' <-
    match extract output with
    | Response h => ret h
    | NoResponse =>
        logger WARNING
          (u "Got invalid response for " ++ ex_id example ++ u ": " ++ output) ;;
        ret []
    | UnpackFailure => raise ValueError
    end;
  print output' ;;
  write_record out [ex_id example; orig example; trans example; output'].

(** Body of the loop over the examples. *)
Definition process_example (tokenizer : Tokenizer E) (peft_model : Model E)
    (out : str) (beams : nat) (example : Example) : M unit :=
  let cfg := mkGenerationConfig (eos_token_id E tokenizer) beams in
  do sequences <-
    external (generate E peft_model (input_ids example) 256 cfg)
      (EvGenerate peft_model (input_ids example) 256 cfg);
  for_each sequences (process_sequence tokenizer out example).

(** Body of the loop over the checkpoints. *)
Definition eval_checkpoint (args : Namespace) (tokenizer : Tokenizer E)
    (model : Model E) (examples : list Example) (checkpoint : str) : M unit :=
  logger INFO (u "Loading checkpoint " ++ checkpoint) ;;
  let out := output_file args checkpoint in
  do present <- path_exists out;
  if present then
    logger INFO (u "Skipping " ++ checkpoint ++ u " - already exists")
  else
    do peft_model <-
      external (peft_from_pretrained E model checkpoint)
        (fun _ => EvPeftFromPretrained model checkpoint);
    do peft_model <-
      external (merge_and_unload E peft_model) (fun _ => EvMergeAndUnload peft_model);
    do half_model <-
      external (half E peft_model) (fun _ => EvHalf peft_model);
    do peft_model <-
      external (cuda E half_model) (fun _ => EvCuda half_model);
    open_write out ;;
    write_record out FIELDNAMES ;;
    let beams := beams_of (preset args) in
    for_each examples (process_example tokenizer peft_model out beams).

Definition run_checkpoints (args : Namespace) (tokenizer : Tokenizer E)
    (model : Model E) (examples : list Example) (cps : list str) : M unit :=
  for_each cps (eval_checkpoint args tokenizer model examples).

(** ** The script *)

(** [len(args.checkpoints)] *)
Definition len_checkpoints (args : Namespace) : M nat :=
  match checkpoints args with
  | Some cps => ret (length cps)
  | None => raise TypeError
  end.

(** Everything between argument parsing and the checkpoint loop. *)
Definition load_all (args : Namespace) : M (Tokenizer E * Model E * list Example) :=
  do n <- len_checkpoints args;
  logger INFO (u "Got " ++ str_of_nat n ++ u " checkpoints to evaluate") ;;
  logger INFO (u "Loading tokenizer " ++ base_model args) ;;
  do tokenizer <-
    external (tokenizer_from_pretrained E (base_model args))
      (fun _ => EvTokenizerFromPretrained (base_model args));
  logger INFO (u "Loading dataset " ++ dataset args) ;;
  do table <- open_read (dataset args);
  do examples <- map_each (dict_reader table) (load_row tokenizer);
  logger INFO
    (u "Loaded and tokenized " ++ str_of_nat (length examples) ++ u " examples") ;;
  do model <-
    external (model_from_pretrained E (base_model args))
      (fun _ => EvModelFromPretrained (base_model args));
  logger INFO (u "Loaded base model") ;;
  ret (tokenizer, model, examples).

(** Iterating over [args.checkpoints]. *)
Definition iter_checkpoints (args : Namespace) : M (list str) :=
  match checkpoints args with
  | Some cps => ret cps
  | None => raise TypeError
  end.

Definition main (argv : list str) : M unit :=
  match parse_args argv with
  | UsageError => raise (SystemExit 2)
  | HelpExit => raise (SystemExit 0)
  | Parsed args =>
      do loaded <- load_all args;
      let '(tokenizer, model, examples) := loaded in
      do cps <- iter_checkpoints args;
      run_checkpoints args tokenizer model examples cps
  end.

End Program.

Arguments SystemExit {E} code.
Arguments TypeError {E}.
Arguments KeyError {E} key.
Arguments FileNotFoundError {E} path.
Arguments ValueError {E}.
Arguments EngineRaised {E} e.
Arguments EvTokenizerFromPretrained {E} name.
Arguments EvTokenize {E} text.
Arguments EvModelFromPretrained {E} name.
Arguments EvPeftFromPretrained {E} base checkpoint.
Arguments EvMergeAndUnload {E} m.
Arguments EvHalf {E} m.
Arguments EvCuda {E} m.
Arguments EvGenerate {E} m ids max_new_tokens cfg outcome.
Arguments mkWorld {E} fs log stdout calls engine.
Arguments fs {E} w.
Arguments log {E} w.
Arguments stdout {E} w.
Arguments calls {E} w.
Arguments engine {E} w.
Arguments mkExample {E} ex_id orig trans prompt input_ids.
Arguments ex_id {E} e.
Arguments orig {E} e.
Arguments trans {E} e.
Arguments prompt {E} e.
Arguments input_ids {E} e.
Arguments ret {E A} a w.
Arguments raise {E A} e w.
Arguments bind {E A B} m k w.
Arguments for_each {E A} l body w.
Arguments map_each {E A B} l f w.
Arguments logger {E} lvl msg w.
Arguments print {E} line w.
Arguments external {E A} f ev w.
Arguments path_exists {E} p w.
Arguments open_read {E} p w.
Arguments open_write {E} p w.
Arguments write_record {E} p r w.
Arguments getitem {E} d key w.
Arguments load_row {E} tokenizer d w.
Arguments process_sequence {E} tokenizer out example s w.
Arguments process_example {E} tokenizer peft_model out beams example w.
Arguments eval_checkpoint {E} args tokenizer model examples checkpoint w.
Arguments run_checkpoints {E} args tokenizer model examples cps w.
Arguments len_checkpoints {E} args w.
Arguments iter_checkpoints {E} args w.
Arguments load_all {E} args w.
Arguments main {E} argv w.

(** ** Observations on a run *)

Definition is_generate {E} (ev : Event E) : bool :=
  match ev with EvGenerate _ _ _ _ _ => true | _ => false end.

Definition is_specialize {E} (ev : Event E) : bool :=
  match ev with
  | EvPeftFromPretrained _ _ | EvMergeAndUnload _ | EvHalf _ | EvCuda _ => true
  | _ => false
  end.

(** Number of generation calls, and of specialization calls, made so far. *)
Definition generation_calls {E} (w : World E) : nat :=
  length (List.filter is_generate (calls w)).

Definition specialization_calls {E} (w : World E) : nat :=
  length (List.filter is_specialize (calls w)).

(** The sequences returned by the generation calls of a list of events,
    with the input each was asked for. *)
Fixpoint generations {E} (evs : list (Event E)) : list (Tokens E * list (Tokens E)) :=
  match evs with
  | [] => []
  | EvGenerate _ ids _ _ (inr seqs) :: evs' => (ids, seqs) :: generations evs'
  | _ :: evs' => generations evs'
  end.

(** The error of a generation call that raised. *)
Definition raised {E} (ev : Event E) : option (EngineError E) :=
  match ev with
  | EvGenerate _ _ _ _ (inl e) => Some e
  | _ => None
  end.

(** The row written for one returned sequence of an example. *)
Definition row_of {E} (tokenizer : Tokenizer E) (example : Example E)
    (s : Tokens E) : list str :=
  [ex_id example; orig example; trans example;
   match extract (decode E tokenizer s) with Response h => h | _ => [] end].

(** The rows for a list of examples, each with the sequences returned for
    it: examples in order, and for one example its sequences in order. *)
Fixpoint rows_of {E} (tokenizer : Tokenizer E)
    (gens : list (Example E * list (Tokens E))) : Table :=
  match gens with
  | [] => []
  | (example, seqs) :: gens' =>
      (row_of tokenizer example <$> seqs) ++ rows_of tokenizer gens'
  end.

(** ** Frames

    A computation preserves a relation between worlds when every run,
    whether it returns or raises, ends in a world related to the one it
    started from. *)
Definition preserves {E A} (R : relation (World E)) (m : M E A) : Prop :=
  forall w, R w (m w).2.

(** Nothing is written and no specialization or generation call is made. *)
Definition quiet {E} (w w' : World E) : Prop :=
  fs w' = fs w /\
  generation_calls w' = generation_calls w /\
  specialization_calls w' = specialization_calls w.

(** No file disappears. *)
Definition keeps_files {E} (w w' : World E) : Prop :=
  forall p, is_Some (fs w !! p) -> is_Some (fs w' !! p).

(** Only the file at [p0] may differ. *)
Definition only_touches {E} (p0 : str) (w w' : World E) : Prop :=
  forall p, p <> p0 -> fs w' !! p = fs w !! p.

(** No file that exists is changed or removed. *)
Definition protects {E} (w w' : World E) : Prop :=
  forall p t, fs w !! p = Some t -> fs w' !! p = Some t.

(** Every library call made between [w] and [w'] satisfies [P]. *)
Definition emits {E} (P : Event E -> Prop) (w w' : World E) : Prop :=
  exists evs, calls w' = calls w ++ evs /\ Forall P evs.

(** The library calls of the checkpoint loop: a specialization starts
    from the loaded base model and a listed checkpoint; a generation is
    asked for the tokens of an example of the dataset, with 256 new
    tokens, the end-of-sequence token as padding and the beam count of
    the preset; nothing is loaded or tokenized. *)
Definition loop_call {E} (args : Namespace) (tokenizer : Tokenizer E)
    (model : Model E) (examples : list (Example E)) (cps : list str)
    (ev : Event E) : Prop :=
  match ev with
  | EvPeftFromPretrained base checkpoint => base = model /\ checkpoint ∈ cps
  | EvMergeAndUnload _ | EvHalf _ | EvCuda _ => True
  | EvGenerate _ ids n cfg _ =>
      ids ∈ (input_ids <$> examples) /\ n = 256 /\
      cfg = mkGenerationConfig (eos_token_id E tokenizer) (beams_of (preset args))
  | _ => False
  end.

(** Between [w] and [w'] some rows were appended to the table at [out],
    if there is one, and their hypotheses were printed in the same order;
    nothing else was printed. *)
Definition mirrors {E} (out : str) (w w' : World E) : Prop :=
  exists rows : Table,
    fs w' !! out = (fun t => t ++ rows) <$> (fs w !! out) /\
    stdout w' = stdout w ++ ((fun r => default [] (r !! 3)) <$> rows).

(** ** Marker removal as the specification words it *)

(** [m] occurs in [s] at index [i]. *)
Definition occurs_at (m s : str) (i : nat) : bool := startswith m (drop i s).

(** Index of the first occurrence of [m] in [s]. *)
Definition first_occurrence (m s : str) : option nat :=
  List.find (occurs_at m s) (seq 0 (S (length s))).

(** The text after the first occurrence of [m]. *)
Definition suffix_after_first (m s : str) : str :=
  match first_occurrence m s with
  | Some i => drop (i + length m) s
  | None => []
  end.

(** Index [i] of [s] lies inside some occurrence of [m]. *)
Definition covered (m s : str) (i : nat) : bool :=
  existsb (fun k => (k <=? i) && occurs_at m s (i - k)) (seq 0 (length m)).

(** The characters of [s] whose index satisfies [keep]. *)
Fixpoint select (keep : nat -> bool) (s : str) : str :=
  match s with
  | [] => []
  | c :: s' =>
      if keep 0 then c :: select (fun i => keep (S i)) s'
      else select (fun i => keep (S i)) s'
  end.

(** Delete every occurrence of [m] anywhere in [s]. *)
Definition removeAll (m s : str) : str :=
  select (fun i => negb (covered m s i)) s.

(** A marker whose first character does not occur again in it. *)
Definition head_unique (m : str) : Prop :=
  match m with
  | [] => False
  | c :: r => c ∉ r
  end.

(** Every ['<'] of [s] starts an occurrence of ["<s>"] or of ["</s>"]. *)
Fixpoint framed (s : str) : bool :=
  match s with
  | [] => true
  | c :: s' =>
      (negb (c =? 60)%N || startswith BOS s || startswith EOS s) && framed s'
  end.

(** ** A small concrete environment

    A tokenizer that is the identity on text and an engine whose models
    are named by the checkpoint merged into them: the model ["broken"]
    raises on generation, the model ["mute"] returns a text without the
    response marker, every other model answers the prompt. *)

Module Toy.

Definition PRYVIT : str := [1055; 1088; 1080; 1074; 1110; 1090]%N.

Definition env : Env :=
  {| Tokenizer := unit;
     Model := str;
     Tokens := str;
     EngineState := nat;
     EngineError := str;
     tokenizer_from_pretrained := fun _ st => (inr tt, S st);
     tokenize := fun _ text st => (inr text, S st);
     decode := fun _ s => s;
     eos_token_id := fun _ => 2%Z;
     model_from_pretrained := fun name st => (inr name, S st);
     peft_from_pretrained := fun _ checkpoint st => (inr checkpoint, S st);
     merge_and_unload := fun m st => (inr m, S st);
     half := fun m st => (inr m, S st);
     cuda := fun m st => (inr m, S st);
     generate := fun m ids _ _ st =>
       if bool_decide (m = u "broken") then (inl (u "out of memory"), S st)
       else if bool_decide (m = u "mute") then (inr [u "[INST] Hel"], S st)
       else (inr [BOS ++ ids ++ PRYVIT ++ EOS], S st) |}.

(** Models, token sequences and errors of this environment are texts. *)
Definition tokenizer : Tokenizer env := tt.
Definition model (name : str) : Model env := name.
Definition tokens (text : str) : Tokens env := text.
Definition oom : EngineError env := u "out of memory".

Definition benchmark : Table :=
  [[u "id"; u "sentence_eng_Latn"; u "sentence_ukr_Cyrl"];
   [u "1"; u "Hello"; PRYVIT]].

(** A fresh process in a directory that holds only the benchmark. *)
Definition world0 : World env :=
  @mkWorld env {[ u "data/flores_eng_ukr_major.csv" := benchmark ]} [] [] [] 0.

Definition hello : Example env :=
  @mkExample env (u "1") (u "Hello") PRYVIT (u "[INST] Hello [/INST]")
    (u "[INST] Hello [/INST]").

End Toy.

(** The same environment, except that the adapter of the checkpoint
    ["missing"] cannot be loaded. *)

Module ToyMissing.

Definition env : Env :=
  {| Tokenizer := unit;
     Model := str;
     Tokens := str;
     EngineState := nat;
     EngineError := str;
     tokenizer_from_pretrained := fun _ st => (inr tt, S st);
     tokenize := fun _ text st => (inr text, S st);
     decode := fun _ s => s;
     eos_token_id := fun _ => 2%Z;
     model_from_pretrained := fun name st => (inr name, S st);
     peft_from_pretrained := fun _ checkpoint st =>
       if bool_decide (checkpoint = u "missing")
       then (inl (u "adapter not found"), S st)
       else (inr checkpoint, S st);
     merge_and_unload := fun m st => (inr m, S st);
     half := fun m st => (inr m, S st);
     cuda := fun m st => (inr m, S st);
     generate := fun m ids _ _ st =>
       (inr [BOS ++ ids ++ Toy.PRYVIT ++ EOS], S st) |}.

Definition tokenizer : Tokenizer env := tt.
Definition model (name : str) : Model env := name.
Definition not_found : EngineError env := u "adapter not found".

Definition world0 : World env :=
  @mkWorld env {[ u "data/flores_eng_ukr_major.csv" := Toy.benchmark ]} [] [] [] 0.

Definition hello : Example env :=
  @mkExample env (u "1") (u "Hello") Toy.PRYVIT (u "[INST] Hello [/INST]")
    (u "[INST] Hello [/INST]").

End ToyMissing.

(** * Properties *)

(** ** Strings *)

Lemma startswith_app (p t : str) : startswith p (p ++ t) = true.
Proof.
  induction p as [|a p IH]; simpl; [done|].
  by rewrite N.eqb_refl.
Qed.

Lemma startswith_true (p s : str) :
  startswith p s = true -> s = p ++ drop (length p) s.
Proof.
  revert s. induction p as [|a p IH]; intros [|b s]; simpl; try done.
  destruct (N.eqb_spec a b) as [->|]; [|done].
  intros H. f_equal. by apply IH.
Qed.

Lemma startswith_iff (p s : str) :
  startswith p s = true <-> exists t, s = p ++ t.
Proof.
  split.
  - intros H. eexists. by apply startswith_true.
  - intros [t ->]. apply startswith_app.
Qed.

Lemma startswith_nil_r (p : str) : p <> [] -> startswith p [] = false.
Proof. by destruct p. Qed.

(** An occurrence at the head of [a ++ b] lies in [a] or runs into [b]. *)
Lemma startswith_app_inv (p a b : str) :
  startswith p (a ++ b) = true ->
  startswith p a = true \/
  exists p2, p = a ++ p2 /\ p2 <> [] /\ startswith p2 b = true.
Proof.
  revert a. induction p as [|x p IH]; intros a H; [by left|].
  destruct a as [|y a]; simpl in *.
  - right. exists (x :: p). split; [done|]. split; [done|]. exact H.
  - destruct (N.eqb_spec x y) as [->|]; [|done].
    destruct (IH a H) as [Ha|(p2 & -> & Hne & Hb)]; [by left|].
    right. by exists p2.
Qed.

(** *** Search *)

Lemma find_cons (sub : str) (c : N) (s : str) :
  find sub (c :: s) = if startswith sub (c :: s) then Some 0 else S <$> find sub s.
Proof. reflexivity. Qed.

Lemma find_Some_occurs (sub s : str) (i : nat) :
  find sub s = Some i -> occurs_at sub s i = true.
Proof.
  unfold occurs_at. revert i. induction s as [|c s IH]; intros i.
  - simpl. destruct (startswith sub []) eqn:Hs; [|done].
    intros [= <-]. exact Hs.
  - rewrite find_cons. destruct (startswith sub (c :: s)) eqn:Hs.
    + intros [= <-]. exact Hs.
    + destruct (find sub s) as [j|]; simpl; [|done].
      intros [= <-]. by apply IH.
Qed.

Lemma find_Some_least (sub s : str) (i j : nat) :
  find sub s = Some i -> j < i -> occurs_at sub s j = false.
Proof.
  unfold occurs_at. revert i j. induction s as [|c s IH]; intros i j.
  - simpl. destruct (startswith sub []); [|done]. intros [= <-]. lia.
  - rewrite find_cons. destruct (startswith sub (c :: s)) eqn:Hs.
    + intros [= <-]. lia.
    + destruct (find sub s) as [k|] eqn:Hf; simpl; [|done].
      intros [= <-] Hj. destruct j as [|j]; [exact Hs|].
      simpl. eapply IH; [done|lia].
Qed.

Lemma find_None (sub s : str) (j : nat) :
  find sub s = None -> occurs_at sub s j = false.
Proof.
  unfold occurs_at. revert j. induction s as [|c s IH]; intros j.
  - simpl. destruct (startswith sub []) eqn:Hs; [done|].
    intros _. by destruct j.
  - rewrite find_cons. destruct (startswith sub (c :: s)) eqn:Hs; [done|].
    destruct (find sub s) eqn:Hf; simpl; [done|].
    intros _. destruct j as [|j]; [exact Hs|]. by apply IH.
Qed.

Lemma find_Some_split (sub s : str) (i : nat) :
  find sub s = Some i -> s = take i s ++ sub ++ drop (i + length sub) s.
Proof.
  intros H. apply find_Some_occurs in H. unfold occurs_at in H.
  apply startswith_true in H.
  rewrite <- (take_drop i s) at 1. f_equal.
  rewrite H at 1. f_equal. rewrite drop_drop. f_equal. 
Qed.

Lemma contains_true_find (sub s : str) :
  contains sub s = true -> exists i, find sub s = Some i.
Proof. unfold contains. destruct (find sub s); [eauto|done]. Qed.

Lemma contains_false_find (sub s : str) :
  contains sub s = false -> find sub s = None.
Proof. unfold contains. by destruct (find sub s). Qed.

(** [sub in s] holds exactly when [s] has [sub] as a substring. *)
Lemma contains_iff (sub s : str) :
  contains sub s = true <-> exists a b, s = a ++ sub ++ b.
Proof.
  split.
  - intros [i Hi]%contains_true_find. apply find_Some_split in Hi. eauto.
  - intros (a & b & ->). destruct (contains sub _) eqn:Hc; [done|].
    apply contains_false_find in Hc.
    apply (find_None _ _ (length a)) in Hc. unfold occurs_at in Hc.
    rewrite drop_app_length in Hc. by rewrite startswith_app in Hc.
Qed.

Lemma contains_cons_false (sub : str) (c : N) (s : str) :
  contains sub (c :: s) = false ->
  startswith sub (c :: s) = false /\ contains sub s = false.
Proof.
  unfold contains. rewrite find_cons.
  destruct (startswith sub (c :: s)); [done|].
  by destruct (find sub s).
Qed.

Lemma find_map_S (p : nat -> bool) (l : list nat) :
  List.find p (S <$> l) = S <$> List.find (fun i => p (S i)) l.
Proof.
  induction l as [|x l IH]; simpl; [done|].
  destruct (p (S x)); [done|]. exact IH.
Qed.

(** The search of the code returns the first occurrence. *)
Lemma first_occurrence_find (m s : str) : first_occurrence m s = find m s.
Proof.
  unfold first_occurrence. induction s as [|c s IH].
  - simpl. unfold occurs_at. simpl. by destruct (startswith m []).
  - rewrite find_cons.
    change (seq 0 (S (length (c :: s)))) with (0 :: seq 1 (S (length s))).
    cbn [List.find].
    change (occurs_at m (c :: s) 0) with (startswith m (c :: s)).
    destruct (startswith m (c :: s)); [done|].
    rewrite <- seq_shift.
    change (map S (seq 0 (S (length s)))) with (S <$> seq 0 (S (length s))).
    rewrite find_map_S, <- IH. reflexivity.
Qed.

(** *** Replacement *)

Lemma replace_scan_skip (old new : str) (k : nat) (s : str) :
  replace_scan old new k s = replace_scan old new 0 (drop k s).
Proof.
  revert k. induction s as [|c s IH]; intros k.
  - by destruct k.
  - destruct k as [|k]; [done|]. simpl. apply IH.
Qed.

Lemma replace_scan_match (old new s : str) :
  old <> [] -> startswith old s = true ->
  replace_scan old new 0 s = new ++ replace_scan old new 0 (drop (length old) s).
Proof.
  intros Hne Hs. destruct old as [|a old]; [done|].
  destruct s as [|c s]; [done|].
  cbn [replace_scan]. rewrite Hs. f_equal.
  rewrite replace_scan_skip. simpl. by rewrite Nat.sub_0_r.
Qed.

Lemma replace_scan_nomatch (old new : str) (c : N) (s : str) :
  startswith old (c :: s) = false ->
  replace_scan old new 0 (c :: s) = c :: replace_scan old new 0 s.
Proof. intros Hs. cbn [replace_scan]. by rewrite Hs. Qed.

(** Induction along the scan: at each position either an occurrence is
    passed over or one character is kept. *)
Lemma scan_ind (old : str) (P : str -> Prop) :
  old <> [] ->
  P [] ->
  (forall s, startswith old s = true -> P (drop (length old) s) -> P s) ->
  (forall c s, startswith old (c :: s) = false -> P s -> P (c :: s)) ->
  forall s, P s.
Proof.
  intros Hne Hnil Hmatch Hstep s.
  remember (length s) as n eqn:Hn. revert s Hn.
  induction n as [n IH] using lt_wf_ind. intros s ->.
  destruct s as [|c s]; [exact Hnil|].
  destruct (startswith old (c :: s)) eqn:Hs.
  - apply Hmatch; [exact Hs|].
    apply (IH (length (drop (length old) (c :: s)))); [|done].
    rewrite length_drop. destruct old; [done|]. simpl. lia.
  - apply Hstep; [exact Hs|]. apply (IH (length s)); [simpl; lia|done].
Qed.

Lemma replace_scan_absent (old new s : str) :
  contains old s = false -> replace_scan old new 0 s = s.
Proof.
  induction s as [|c s IH]; [done|].
  intros [Hs Hc]%contains_cons_false.
  rewrite replace_scan_nomatch by done. f_equal. by apply IH.
Qed.

Lemma replace_absent (s old new : str) :
  old <> [] -> contains old s = false -> replace s old new = s.
Proof.
  intros Hne Hc. destruct old; [done|]. by apply replace_scan_absent.
Qed.

(** *** Deleting every occurrence *)

Lemma covered_spec (m s : str) (i : nat) :
  covered m s i = true <->
  exists k, k < length m /\ k <= i /\ occurs_at m s (i - k) = true.
Proof.
  unfold covered. rewrite existsb_exists. split.
  - intros (k & Hin & Hk). apply in_seq in Hin.
    apply andb_true_iff in Hk as [Hle Hocc]. apply Nat.leb_le in Hle.
    exists k. repeat split; [lia|done|done].
  - intros (k & Hlt & Hle & Hocc). exists k. split.
    + apply in_seq. lia.
    + apply andb_true_iff. split; [by apply Nat.leb_le|done].
Qed.

(** Two occurrences of a head-unique marker do not overlap. *)
Lemma no_overlap (m s : str) (k : nat) :
  head_unique m -> startswith m s = true -> 0 < k < length m ->
  occurs_at m s k = false.
Proof.
  intros Hu Hs Hk. destruct m as [|c r]; [done|]. simpl in Hu.
  apply startswith_true in Hs. unfold occurs_at.
  destruct (startswith (c :: r) (drop k s)) eqn:Hd; [|done].
  exfalso. apply Hu. apply startswith_true in Hd.
  assert (Hl : drop k s !! 0 = Some c) by (by rewrite Hd).
  rewrite lookup_drop, Hs in Hl.
  destruct k as [|k]; [lia|]. simpl in Hl, Hk.
  rewrite Nat.add_0_r in Hl.
  rewrite lookup_app_l in Hl by lia.
  eapply list_elem_of_lookup_2, Hl.
Qed.

Lemma select_ext (f g : nat -> bool) (s : str) :
  (forall i, i < length s -> f i = g i) -> select f s = select g s.
Proof.
  revert f g. induction s as [|c s IH]; intros f g H; [done|].
  simpl. rewrite (H 0) by (simpl; lia).
  rewrite (IH (fun i => f (S i)) (fun i => g (S i)));
    [done|intros i Hi; apply H; simpl; lia].
Qed.

Lemma select_drop (keep : nat -> bool) (n : nat) (s : str) :
  (forall i, i < n -> keep i = false) ->
  select keep s = select (fun i => keep (n + i)) (drop n s).
Proof.
  revert keep s. induction n as [|n IH]; intros keep s H.
  - by rewrite drop_0.
  - destruct s as [|c s]; [done|]. simpl.
    rewrite (H 0) by lia. apply IH. intros i Hi. apply H. lia.
Qed.

Lemma removeAll_nil (m : str) : removeAll m [] = [].
Proof. reflexivity. Qed.

Lemma removeAll_match (m s : str) :
  head_unique m -> startswith m s = true ->
  removeAll m s = removeAll m (drop (length m) s).
Proof.
  intros Hu Hs. unfold removeAll.
  rewrite (select_drop _ (length m)).
  - apply select_ext. intros i _. f_equal.
    apply Bool.eq_iff_eq_true. rewrite !covered_spec. split.
    + intros (k & Hk & Hle & Hocc).
      destruct (decide (k <= i)) as [Hki|Hki].
      * exists k. repeat split; [done|done|].
        unfold occurs_at in *. rewrite drop_drop.
        replace (length m + (i - k)) with (length m + i - k) by lia. done.
      * rewrite (no_overlap m s (length m + i - k)) in Hocc; [done|done|done|lia].
    + intros (k & Hk & Hle & Hocc). exists k. repeat split; [done|lia|].
      unfold occurs_at in *. rewrite drop_drop in Hocc.
      replace (length m + i - k) with (length m + (i - k)) by lia. done.
  - intros i Hi. apply negb_false_iff, covered_spec.
    exists i. repeat split; [done|done|].
    rewrite Nat.sub_diag. exact Hs.
Qed.

Lemma removeAll_nomatch (m : str) (c : N) (s : str) :
  startswith m (c :: s) = false ->
  removeAll m (c :: s) = c :: removeAll m s.
Proof.
  intros Hs. unfold removeAll. cbn [select].
  assert (H0 : covered m (c :: s) 0 = false).
  { destruct (covered m (c :: s) 0) eqn:Hc; [|done].
    apply covered_spec in Hc as (k & _ & Hle & Hocc).
    replace (0 - k) with 0 in Hocc by lia.
    unfold occurs_at in Hocc. simpl in Hocc. congruence. }
  rewrite H0. simpl. f_equal.
  apply select_ext. intros i _. f_equal.
  apply Bool.eq_iff_eq_true. rewrite !covered_spec. split.
  - intros (k & Hk & Hle & Hocc).
    destruct (decide (k <= i)) as [Hki|Hki].
    + exists k. repeat split; [done|done|].
      replace (S i - k) with (S (i - k)) in Hocc by lia. exact Hocc.
    + replace (S i - k) with 0 in Hocc by lia.
      unfold occurs_at in Hocc. simpl in Hocc. congruence.
  - intros (k & Hk & Hle & Hocc). exists k. repeat split; [done|lia|].
    replace (S i - k) with (S (i - k)) by lia. exact Hocc.
Qed.

(** For a head-unique marker the scan of the code deletes exactly the
    characters that lie inside an occurrence. *)
Lemma replace_removeAll (m s : str) :
  head_unique m -> replace s m [] = removeAll m s.
Proof.
  intros Hu. assert (Hne : m <> []) by (by destruct m).
  unfold replace. destruct m as [|a m'] eqn:Hm; [done|]. rewrite <- Hm in *.
  clear Hm. revert s. apply (scan_ind m); [done|done|..].
  - intros s Hs IH. by rewrite replace_scan_match, removeAll_match.
  - intros c s Hs IH. rewrite replace_scan_nomatch, removeAll_nomatch by done.
    by f_equal.
Qed.

Lemma BOS_head_unique : head_unique BOS.
Proof. unfold head_unique. cbn. rewrite !elem_of_cons, elem_of_nil.
  intros H. decompose [or] H; done.
Qed.

Lemma EOS_head_unique : head_unique EOS.
Proof. unfold head_unique. cbn. rewrite !elem_of_cons, elem_of_nil.
  intros H. decompose [or] H; done.
Qed.

(** *** Trimming *)

Lemma lstrip_elem (c : N) (s : str) : c ∈ lstrip s -> c ∈ s.
Proof.
  induction s as [|x s IH]; simpl; [done|].
  destruct (isspace x); [|done]. intros H. right. by apply IH.
Qed.

Lemma strip_elem (c : N) (s : str) : c ∈ strip s -> c ∈ s.
Proof.
  unfold strip, rstrip. rewrite list_elem_of_In, <- in_rev, <- list_elem_of_In.
  intros H%lstrip_elem. apply lstrip_elem.
  by rewrite list_elem_of_In, in_rev, <- list_elem_of_In.
Qed.

Lemma contains_head_elem (c : N) (r s : str) :
  contains (c :: r) s = true -> c ∈ s.
Proof.
  intros (a & b & ->)%contains_iff.
  rewrite elem_of_app. right. by left.
Qed.

(** *** Markers that frame the answer *)

Lemma startswith_cons (a b : N) (p s : str) :
  startswith (a :: p) (b :: s) = if N.eqb a b then startswith p s else false.
Proof. reflexivity. Qed.

Lemma BOS_eq : BOS = [60; 115; 62]%N.
Proof. reflexivity. Qed.

Lemma EOS_eq : EOS = [60; 47; 115; 62]%N.
Proof. reflexivity. Qed.

Lemma EOS_tail_eq : u "/s>" = [47; 115; 62]%N.
Proof. reflexivity. Qed.

Lemma framed_cons (c : N) (s : str) :
  framed (c :: s) = true ->
  (c = 60%N -> startswith BOS (c :: s) = true \/ startswith EOS (c :: s) = true)
  /\ framed s = true.
Proof.
  cbn [framed]. intros [H1 H2]%andb_true_iff. split; [|done].
  intros ->. rewrite N.eqb_refl in H1. simpl negb in H1.
  apply orb_true_iff in H1 as [H1|H1]; [|by right].
  apply orb_true_iff in H1 as [H1|H1]; [done|by left].
Qed.

Lemma framed_drop (k : nat) (s : str) :
  framed s = true -> framed (drop k s) = true.
Proof.
  revert s. induction k as [|k IH]; intros s H; [by rewrite drop_0|].
  destruct s as [|c s]; [done|]. simpl. apply IH.
  by apply framed_cons in H as [_ H].
Qed.

(** After the first pass every ['<'] still starts an occurrence of
    ["</s>"]. *)
Lemma framed_after_BOS (s : str) :
  framed s = true ->
  forall a b, replace_scan BOS [] 0 s = a ++ 60%N :: b ->
    startswith (u "/s>") b = true.
Proof.
  revert s.
  apply (scan_ind BOS (fun s => framed s = true ->
    forall a b, replace_scan BOS [] 0 s = a ++ 60%N :: b ->
      startswith (u "/s>") b = true)); [done|..].
  - intros _ a b H. by destruct a.
  - intros s Hs IH Hf a b. rewrite replace_scan_match by done.
    apply IH. by apply framed_drop.
  - intros c s Hs IH Hf a b. rewrite replace_scan_nomatch by done.
    apply framed_cons in Hf as [Hc Hf].
    destruct a as [|x a]; intros Heq; simpl in Heq; injection Heq as Hx Hb.
    + destruct (Hc Hx) as [H|H]; [congruence|].
      apply startswith_true in H. rewrite EOS_eq in H. simpl in H.
      injection H as _ Hs'. rewrite Hs', BOS_eq in Hb. simpl in Hb.
      rewrite <- Hb, EOS_tail_eq. by simpl.
    + by apply (IH Hf a b).
Qed.

(** The second pass then leaves no ['<'] at all. *)
Lemma no_lt_after_EOS (y : str) :
  (forall a b, y = a ++ 60%N :: b -> startswith (u "/s>") b = true) ->
  60%N ∉ replace_scan EOS [] 0 y.
Proof.
  revert y.
  apply (scan_ind EOS (fun y =>
    (forall a b, y = a ++ 60%N :: b -> startswith (u "/s>") b = true) ->
    60%N ∉ replace_scan EOS [] 0 y)); [done|..].
  - intros _. simpl. apply not_elem_of_nil.
  - intros y Hs IH Hy. rewrite replace_scan_match by done. apply IH.
    intros a b Hd. apply (Hy (take (length EOS) y ++ a) b).
    by rewrite <- app_assoc, <- Hd, take_drop.
  - intros c y Hs IH Hy. rewrite replace_scan_nomatch by done.
    rewrite not_elem_of_cons. split.
    + intros Hc. subst c. specialize (Hy [] y eq_refl).
      rewrite EOS_eq, startswith_cons, N.eqb_refl in Hs.
      rewrite EOS_tail_eq in Hy. congruence.
    + apply IH. intros a b ->. by apply (Hy (c :: a) b).
Qed.

(** A framed text loses every marker. *)
Lemma framed_no_residue (s : str) :
  framed s = true ->
  60%N ∉ strip (replace (replace s BOS []) EOS []).
Proof.
  intros Hf Hin. apply strip_elem in Hin. revert Hin.
  apply no_lt_after_EOS. by apply framed_after_BOS.
Qed.

(** *** Extraction *)

Lemma extract_found (t : str) (i : nat) :
  find INST_CLOSE t = Some i ->
  extract t =
  Response (strip (replace (replace (drop (i + length INST_CLOSE) t) BOS []) EOS [])).
Proof.
  intros H. unfold extract, contains, split1. by rewrite H.
Qed.

Lemma extract_missing (t : str) :
  contains INST_CLOSE t = false -> extract t = NoResponse.
Proof. intros H. unfold extract. by rewrite H. Qed.

(** The unpacking of the split never fails. *)
Lemma extract_unpacks (t : str) : extract t <> UnpackFailure.
Proof.
  destruct (contains INST_CLOSE t) eqn:Hc.
  - apply contains_true_find in Hc as [i Hi]. by rewrite (extract_found t i Hi).
  - by rewrite extract_missing.
Qed.

(** A block that does not contain the marker and is closed by a character
    foreign to the marker cannot hide an occurrence. *)
Lemma find_past_block (m a : str) (sp : N) (rest : str) :
  m <> [] -> sp ∉ m -> contains m a = false ->
  find m (a ++ sp :: rest) = (fun i => length a + 1 + i) <$> find m rest.
Proof.
  intros Hne Hsp. induction a as [|c a IH]; intros Hc.
  - simpl app. rewrite find_cons.
    destruct m as [|x m]; [done|]. rewrite startswith_cons.
    destruct (N.eqb_spec x sp) as [->|_]; [exfalso; apply Hsp; by left|].
    by destruct (find (x :: m) rest).
  - apply contains_cons_false in Hc as [Hs Hc].
    change ((c :: a) ++ sp :: rest) with (c :: (a ++ sp :: rest)).
    rewrite find_cons.
    destruct (startswith m (c :: a ++ sp :: rest)) eqn:Hs'.
    + exfalso.
      apply (startswith_app_inv m (c :: a) (sp :: rest)) in Hs'
        as [Hs'|(p2 & -> & Hp2 & Hs')]; [congruence|].
      destruct p2 as [|y p2]; [done|]. rewrite startswith_cons in Hs'.
      destruct (N.eqb_spec y sp) as [->|_]; [|done].
      apply Hsp. rewrite elem_of_app. right. by left.
    + rewrite (IH Hc). by destruct (find m rest).
Qed.

Lemma find_at_head (m t : str) : find m (m ++ t) = Some 0.
Proof.
  destruct m as [|x m]; [by destruct t|].
  change ((x :: m) ++ t) with (x :: (m ++ t)).
  rewrite find_cons.
  change (x :: (m ++ t)) with ((x :: m) ++ t). by rewrite startswith_app.
Qed.

Lemma INST_CLOSE_no_space : 32%N ∉ INST_CLOSE.
Proof.
  unfold INST_CLOSE. cbn. rewrite !elem_of_cons, elem_of_nil.
  intros H. decompose [or] H; done.
Qed.

(** The marker of the rendered prompt is the first one of the text. *)
Lemma find_in_rendered (s h : str) :
  contains INST_CLOSE s = false ->
  find INST_CLOSE (generate_prompt s ++ h) = Some (length (generate_prompt s) - 7).
Proof.
  intros Hs.
  replace (generate_prompt s ++ h)
    with (u "[INST]" ++ 32%N :: (s ++ 32%N :: (INST_CLOSE ++ h))).
  2:{ unfold generate_prompt.
      change (u "[INST] ") with (u "[INST]" ++ [32%N]).
      change (u " [/INST]") with (32%N :: INST_CLOSE).
      by rewrite <- !app_assoc. }
  rewrite find_past_block; [|done|apply INST_CLOSE_no_space|reflexivity].
  rewrite find_past_block; [|done|apply INST_CLOSE_no_space|done].
  rewrite find_at_head. simpl. f_equal.
  unfold generate_prompt. rewrite !length_app.
  change (length (u "[INST] ")) with 7.
  change (length (u " [/INST]")) with 8. lia.
Qed.

(** The scenario of the specification: the answer is recovered from a
    decoded text framed by sequence markers. *)
Example extract_scenario :
  extract (BOS ++ u "[INST] Hello [/INST]" ++ Toy.PRYVIT ++ EOS)
  = Response Toy.PRYVIT.
Proof. vm_compute. reflexivity. Qed.

(** Markers in the middle of the answer are deleted as well. *)
Example extract_inner_markers :
  extract (u "[INST] x [/INST] a<s>b</s>c ") = Response (u "abc").
Proof. vm_compute. reflexivity. Qed.

(** C2 (as amended). For a decoded text that contains ["[/INST]"], the
    extraction returns the text after the first occurrence of the marker,
    passed once through the removal of ["<s>"], then once through the
    removal of ["</s>"], then trimmed.  When every ['<'] of the text after
    the marker starts one of the two markers, the result contains no
    ['<'] and so neither marker. *)
Theorem extract_after_first_marker (t : str) :
  contains INST_CLOSE t = true ->
  exists before after,
    t = before ++ INST_CLOSE ++ after /\
    (forall b' a', t = b' ++ INST_CLOSE ++ a' -> length before <= length b') /\
    extract t = Response (strip (replace (replace after BOS []) EOS [])) /\
    (framed after = true ->
     forall h, extract t = Response h ->
       contains BOS h = false /\ contains EOS h = false).
Proof.
  intros [i Hi]%contains_true_find.
  exists (take i t), (drop (i + length INST_CLOSE) t).
  split; [by apply find_Some_split|]. split; [|split].
  - intros b' a' Ht.
    destruct (decide (length (take i t) <= length b')) as [|Hlt]; [done|].
    exfalso. rewrite length_take in Hlt.
    assert (Hocc : occurs_at INST_CLOSE t (length b') = false)
      by (apply (find_Some_least _ _ i); [done|lia]).
    unfold occurs_at in Hocc. rewrite Ht in Hocc at 1.
    rewrite drop_app_length in Hocc. by rewrite startswith_app in Hocc.
  - by apply extract_found.
  - intros Hf h. rewrite (extract_found t i Hi). intros [= <-].
    pose proof (framed_no_residue _ Hf) as Hno.
    split.
    + destruct (contains BOS _) eqn:Hc; [|done].
      rewrite BOS_eq in Hc. by apply contains_head_elem in Hc.
    + destruct (contains EOS _) eqn:Hc; [|done].
      rewrite EOS_eq in Hc. by apply contains_head_elem in Hc.
Qed.

Lemma extract_after_first_marker_witness :
  contains INST_CLOSE (u "<s>[INST] Hi [/INST] ok</s>") = true /\
  exists before after,
    u "<s>[INST] Hi [/INST] ok</s>" = before ++ INST_CLOSE ++ after /\
    (forall b' a', u "<s>[INST] Hi [/INST] ok</s>" = b' ++ INST_CLOSE ++ a' ->
       length before <= length b') /\
    extract (u "<s>[INST] Hi [/INST] ok</s>")
    = Response (strip (replace (replace after BOS []) EOS [])) /\
    (framed after = true ->
     forall h, extract (u "<s>[INST] Hi [/INST] ok</s>") = Response h ->
       contains BOS h = false /\ contains EOS h = false).
Proof.
  split; [reflexivity|].
  apply (extract_after_first_marker (u "<s>[INST] Hi [/INST] ok</s>")).
  reflexivity.
Defined.

(** C2 (as stated) fails: removing ["<s>"] from ["<<s>s>"] joins the two
    halves into a new ["<s>"], which stays in the result. *)
Lemma extract_residual_marker :
  ~ (forall t h, contains INST_CLOSE t = true -> extract t = Response h ->
       contains BOS h = false /\ contains EOS h = false).
Proof.
  intros H.
  destruct (H (u "[/INST]<<s>s>") (u "<s>") eq_refl eq_refl) as [Hb _].
  vm_compute in Hb. discriminate Hb.
Qed.

(** C9. Text rendered by the template and continued by a text free of
    markers is cut back to the continuation, trimmed. *)
Theorem template_extractor_lockstep (s h : str) :
  contains INST_CLOSE s = false ->
  contains INST_CLOSE h = false ->
  contains BOS h = false ->
  contains EOS h = false ->
  extract (generate_prompt s ++ h) = Response (strip h).
Proof.
  intros Hs _ Hb He.
  rewrite (extract_found _ _ (find_in_rendered s h Hs)).
  assert (Hlen : length (generate_prompt s) - 7 + length INST_CLOSE
                 = length (generate_prompt s)).
  { unfold generate_prompt. rewrite !length_app.
    change (length (u " [/INST]")) with 8.
    change (length INST_CLOSE) with 7. lia. }
  rewrite Hlen, drop_app_length.
  rewrite (replace_absent h BOS []) by done.
  by rewrite (replace_absent h EOS []).
Qed.

Lemma template_extractor_lockstep_witness :
  extract (generate_prompt (u "Hello") ++ u "  Pryvit svit ")
  = Response (strip (u "  Pryvit svit ")).
Proof.
  apply (template_extractor_lockstep (u "Hello") (u "  Pryvit svit "));
    reflexivity.
Defined.

(** C10. For a decoded text that contains ["[/INST]"], the extraction
    returns the text after the first marker with every occurrence of
    ["<s>"] deleted, then every occurrence of ["</s>"] of what is left
    deleted, then trimmed: occurrences anywhere in the answer go, not only
    those that frame it. *)
Theorem extract_removes_everywhere (t : str) :
  contains INST_CLOSE t = true ->
  extract t =
  Response (strip (removeAll EOS (removeAll BOS (suffix_after_first INST_CLOSE t)))).
Proof.
  intros [i Hi]%contains_true_find.
  rewrite (extract_found t i Hi).
  unfold suffix_after_first. rewrite first_occurrence_find, Hi.
  rewrite (replace_removeAll BOS) by apply BOS_head_unique.
  by rewrite (replace_removeAll EOS) by apply EOS_head_unique.
Qed.

Lemma extract_removes_everywhere_witness :
  contains INST_CLOSE (u "[INST] x [/INST] a<s>b</s>c ") = true /\
  extract (u "[INST] x [/INST] a<s>b</s>c ") =
  Response (strip (removeAll EOS (removeAll BOS
    (suffix_after_first INST_CLOSE (u "[INST] x [/INST] a<s>b</s>c "))))).
Proof.
  split; [reflexivity|].
  apply (extract_removes_everywhere (u "[INST] x [/INST] a<s>b</s>c ")).
  reflexivity.
Defined.

(** ** Command line *)







(** ** Frames of the computations *)

Section Frames.

Context {E : Env} (R : relation (World E)) `{!PreOrder R}.

Lemma preserves_ret {A} (a : A) : preserves R (ret a).
Proof. intros w. simpl. reflexivity. Qed.

Lemma preserves_raise {A} (e : Exn E) : preserves R (raise (A := A) e).
Proof. intros w. simpl. reflexivity. Qed.

Lemma preserves_bind {A B} (m : M E A) (k : A -> M E B) :
  preserves R m -> (forall a, preserves R (k a)) -> preserves R (bind m k).
Proof.
  intros Hm Hk w. unfold bind. specialize (Hm w).
  destruct (m w) as [[e|a] w1]; simpl in *; [done|].
  etrans; [exact Hm|apply Hk].
Qed.

Lemma preserves_for_each {A} (l : list A) (body : A -> M E unit) :
  (forall x, preserves R (body x)) -> preserves R (for_each l body).
Proof.
  intros Hb. induction l as [|x l IH].
  - apply preserves_ret.
  - apply preserves_bind; [apply Hb|intros _; exact IH].
Qed.

Lemma preserves_map_each {A B} (l : list A) (f : A -> M E B) :
  (forall x, preserves R (f x)) -> preserves R (map_each l f).
Proof.
  intros Hf. induction l as [|x l IH].
  - apply preserves_ret.
  - apply preserves_bind; [apply Hf|intros y].
    apply preserves_bind; [exact IH|intros ys]. apply preserves_ret.
Qed.

End Frames.

Global Instance quiet_preorder {E} : PreOrder (@quiet E).
Proof.
  split.
  - by intros w.
  - intros w1 w2 w3 (H1 & H2 & H3) (H4 & H5 & H6).
    repeat split; congruence.
Qed.

Global Instance keeps_files_preorder {E} : PreOrder (@keeps_files E).
Proof.
  split.
  - by intros w p.
  - intros w1 w2 w3 H1 H2 p Hp. by apply H2, H1.
Qed.

Global Instance only_touches_preorder {E} (p0 : str) :
  PreOrder (@only_touches E p0).
Proof.
  split.
  - by intros w p.
  - intros w1 w2 w3 H1 H2 p Hp. by rewrite H2, H1.
Qed.

(** Steps that leave the files and the call record alone. *)
Lemma same_files_calls {E} (w w' : World E) (p0 : str) :
  fs w' = fs w -> calls w' = calls w ->
  quiet w w' /\ keeps_files w w' /\ only_touches p0 w w'.
Proof.
  intros Hf Hc. unfold quiet, keeps_files, only_touches,
    generation_calls, specialization_calls.
  rewrite Hf, Hc. done.
Qed.

Lemma logger_quiet {E} lvl msg : preserves (@quiet E) (logger lvl msg).
Proof. intros w. by apply (same_files_calls _ _ []). Qed.

Lemma logger_keeps {E} lvl msg : preserves (@keeps_files E) (logger lvl msg).
Proof. intros w. by apply (same_files_calls _ _ []). Qed.

Lemma logger_touches {E} p0 lvl msg :
  preserves (@only_touches E p0) (logger lvl msg).
Proof. intros w. by apply (same_files_calls _ _ p0). Qed.

Lemma print_keeps {E} line : preserves (@keeps_files E) (print line).
Proof. intros w. by apply (same_files_calls _ _ []). Qed.

Lemma print_touches {E} p0 line : preserves (@only_touches E p0) (print line).
Proof. intros w. by apply (same_files_calls _ _ p0). Qed.

Lemma path_exists_quiet {E} p : preserves (@quiet E) (path_exists p).
Proof. intros w. by apply (same_files_calls _ _ []). Qed.

Lemma path_exists_keeps {E} p : preserves (@keeps_files E) (path_exists p).
Proof. intros w. by apply (same_files_calls _ _ []). Qed.

Lemma path_exists_touches {E} p0 p :
  preserves (@only_touches E p0) (path_exists p).
Proof. intros w. by apply (same_files_calls _ _ p0). Qed.

Lemma open_read_quiet {E} p : preserves (@quiet E) (open_read p).
Proof.
  intros w. unfold open_read. destruct (fs w !! p); reflexivity.
Qed.

Lemma getitem_quiet {E} d key : preserves (@quiet E) (getitem d key).
Proof.
  intros w. unfold getitem. destruct (d !! key); reflexivity.
Qed.

Lemma external_fs {E A} (f : EngineState E -> (EngineError E + A) * EngineState E)
    ev (w : World E) :
  fs (external f ev w).2 = fs w.
Proof. unfold external. by destruct (f (engine w)) as [[e|a] st]. Qed.

Lemma external_calls {E A}
    (f : EngineState E -> (EngineError E + A) * EngineState E) ev (w : World E) :
  calls (external f ev w).2 = calls w ++ [ev (f (engine w)).1].
Proof. unfold external. by destruct (f (engine w)) as [[e|a] st]. Qed.

Lemma external_keeps {E A}
    (f : EngineState E -> (EngineError E + A) * EngineState E) ev :
  preserves (@keeps_files E) (external f ev).
Proof. intros w p. by rewrite external_fs. Qed.

Lemma external_touches {E A} p0
    (f : EngineState E -> (EngineError E + A) * EngineState E) ev :
  preserves (@only_touches E p0) (external f ev).
Proof. intros w p _. by rewrite external_fs. Qed.

(** A library call that is neither a specialization nor a generation. *)
Lemma external_quiet {E A}
    (f : EngineState E -> (EngineError E + A) * EngineState E) ev :
  (forall r, is_generate (ev r) = false /\ is_specialize (ev r) = false) ->
  preserves (@quiet E) (external f ev).
Proof.
  intros Hev w. unfold quiet, generation_calls, specialization_calls.
  rewrite external_fs, external_calls, !List.filter_app. simpl.
  destruct (Hev (f (engine w)).1) as [-> ->]. simpl.
  by rewrite !app_nil_r.
Qed.

Lemma open_write_keeps {E} p : preserves (@keeps_files E) (open_write p).
Proof.
  intros w q Hq. simpl. rewrite lookup_insert. by case_decide.
Qed.

Lemma open_write_touches {E} p : preserves (@only_touches E p) (open_write p).
Proof. intros w q Hq. simpl. by rewrite lookup_insert_ne. Qed.

Lemma write_record_keeps {E} p r : preserves (@keeps_files E) (write_record p r).
Proof.
  intros w q Hq. simpl. rewrite lookup_alter. case_decide; [|done].
  subst. by apply fmap_is_Some.
Qed.

Lemma write_record_touches {E} p r :
  preserves (@only_touches E p) (write_record p r).
Proof. intros w q Hq. simpl. by rewrite lookup_alter_ne. Qed.

(** *** Inversion of sequencing *)

Lemma bind_inv {E A B} (m : M E A) (k : A -> M E B) (w w' : World E) r :
  bind m k w = (r, w') ->
  (exists e, m w = (inl e, w') /\ r = inl e) \/
  (exists a w1, m w = (inr a, w1) /\ k a w1 = (r, w')).
Proof.
  unfold bind. destruct (m w) as [[e|a] w1].
  - intros [= <- <-]. left. by exists e.
  - intros H. right. by exists a, w1.
Qed.

Lemma bind_inr_inv {E A B} (m : M E A) (k : A -> M E B) (w w' : World E) b :
  bind m k w = (inr b, w') ->
  exists a w1, m w = (inr a, w1) /\ k a w1 = (inr b, w').
Proof.
  intros [(e & _ & He)|H]%bind_inv; [done|exact H].
Qed.

Lemma bind_step {E A B} (m : M E A) (k : A -> M E B) (w w1 : World E) a :
  m w = (inr a, w1) -> bind m k w = k a w1.
Proof. intros H. unfold bind. by rewrite H. Qed.

Lemma bind_raise {E A B} (m : M E A) (k : A -> M E B) (w w1 : World E) e :
  m w = (inl e, w1) -> bind m k w = (inl e, w1).
Proof. intros H. unfold bind. by rewrite H. Qed.




(** *** Loading *)

Ltac frame_steps leaf :=
  repeat first
    [ leaf
    | apply preserves_bind; [apply _| |intros ?]
    | apply preserves_ret; apply _
    | apply preserves_raise; apply _
    | apply preserves_for_each; [apply _|intros ?]
    | apply preserves_map_each; [apply _|intros ?]
    | progress cbv zeta ].

Lemma load_row_quiet {E} (tokenizer : Tokenizer E) d :
  preserves quiet (load_row tokenizer d).
Proof.
  unfold load_row.
  frame_steps ltac:(first [apply getitem_quiet | by apply external_quiet]).
Qed.

Lemma len_checkpoints_quiet {E} args : preserves (@quiet E) (len_checkpoints args).
Proof.
  intros w. unfold len_checkpoints. by destruct (checkpoints args).
Qed.

(** Loading writes no file and makes no specialization or generation
    call, whether it succeeds or not. *)
Lemma load_all_quiet {E} args : preserves (@quiet E) (load_all args).
Proof.
  unfold load_all.
  frame_steps ltac:(first [ apply len_checkpoints_quiet | apply logger_quiet
                          | apply open_read_quiet | apply getitem_quiet
                          | by apply external_quiet ]).
Qed.

(** *** Evaluation touches only its own table and removes none *)

Lemma process_sequence_keeps {E} (tok : Tokenizer E) out ex s :
  preserves keeps_files (process_sequence tok out ex s).
Proof.
  unfold process_sequence. destruct (extract _);
    frame_steps ltac:(first [ apply logger_keeps | apply print_keeps
                            | apply write_record_keeps ]).
Qed.

Lemma process_sequence_touches {E} (tok : Tokenizer E) out ex s :
  preserves (only_touches out) (process_sequence tok out ex s).
Proof.
  unfold process_sequence. destruct (extract _);
    frame_steps ltac:(first [ apply logger_touches | apply print_touches
                            | apply write_record_touches ]).
Qed.

Lemma process_example_keeps {E} (tok : Tokenizer E) pm out beams ex :
  preserves keeps_files (process_example tok pm out beams ex).
Proof.
  unfold process_example.
  frame_steps ltac:(first [apply external_keeps | apply process_sequence_keeps]).
Qed.

Lemma process_example_touches {E} (tok : Tokenizer E) pm out beams ex :
  preserves (only_touches out) (process_example tok pm out beams ex).
Proof.
  unfold process_example.
  frame_steps
    ltac:(first [apply external_touches | apply process_sequence_touches]).
Qed.

Lemma eval_checkpoint_keeps {E} args (tok : Tokenizer E) model exs c :
  preserves keeps_files (eval_checkpoint args tok model exs c).
Proof.
  unfold eval_checkpoint.
  apply preserves_bind; [apply _|apply logger_keeps|intros _].
  apply preserves_bind; [apply _|apply path_exists_keeps|intros [|]];
    [apply logger_keeps|].
  frame_steps ltac:(first [ apply external_keeps | apply open_write_keeps
          | apply write_record_keeps | apply process_example_keeps ]).
Qed.

Lemma eval_checkpoint_touches {E} args (tok : Tokenizer E) model exs c :
  preserves (only_touches (output_file args c))
    (eval_checkpoint args tok model exs c).
Proof.
  unfold eval_checkpoint.
  apply preserves_bind; [apply _|apply logger_touches|intros _].
  apply preserves_bind; [apply _|apply path_exists_touches|intros [|]];
    [apply logger_touches|].
  frame_steps ltac:(first [ apply external_touches | apply open_write_touches
          | apply write_record_touches | apply process_example_touches ]).
Qed.

Lemma run_checkpoints_keeps {E} args (tok : Tokenizer E) model exs cps :
  preserves keeps_files (run_checkpoints args tok model exs cps).
Proof.
  apply preserves_for_each; [apply _|]. intros c. apply eval_checkpoint_keeps.
Qed.

(** ** Output path and idempotent skip *)

(** Replacing ["/"] by ["-"] maps the characters one by one. *)
Lemma slug_map (c : str) :
  replace c (u "/") (u "-") = (fun ch => if (ch =? 47)%N then 45%N else ch) <$> c.
Proof.
  change (replace c (u "/") (u "-")) with (replace_scan [47%N] [45%N] 0 c).
  induction c as [|ch c IH]; [done|].
  cbn [replace_scan fmap list_fmap]. rewrite startswith_cons. cbn [startswith].
  rewrite (N.eqb_sym 47 ch).
  destruct (ch =? 47)%N; simpl; by rewrite IH.
Qed.

(** A checkpoint whose table exists is skipped: two log lines, nothing
    else. *)
Lemma eval_checkpoint_skip {E} args (tok : Tokenizer E) model exs c (w : World E) :
  is_Some (fs w !! output_file args c) ->
  eval_checkpoint args tok model exs c w =
  (inr tt,
   mkWorld (fs w)
     (log w ++ [(INFO, u "Loading checkpoint " ++ c);
                (INFO, u "Skipping " ++ c ++ u " - already exists")])
     (stdout w) (calls w) (engine w)).
Proof.
  intros H. unfold eval_checkpoint, bind, logger, path_exists. simpl.
  rewrite bool_decide_eq_true_2 by done. simpl. by rewrite <- app_assoc.
Qed.

(** A checkpoint evaluated to the end has its table on disk. *)
Lemma eval_checkpoint_done_file {E} args (tok : Tokenizer E) model exs c
    (w w' : World E) :
  eval_checkpoint args tok model exs c w = (inr tt, w') ->
  is_Some (fs w' !! output_file args c).
Proof.
  intros H.
  destruct (decide (is_Some (fs w !! output_file args c))) as [Hp|Hp].
  - pose proof (eval_checkpoint_keeps args tok model exs c w _ Hp) as Hk.
    by rewrite H in Hk.
  - unfold eval_checkpoint in H.
    apply bind_inr_inv in H as ([] & w1 & H1 & H).
    apply bind_inr_inv in H as (present & w2 & H2 & H).
    injection H1 as <-. injection H2 as <- <-. simpl in H.
    rewrite bool_decide_eq_false_2 in H by done.
    apply bind_inr_inv in H as (pm1 & w3 & _ & H).
    apply bind_inr_inv in H as (pm2 & w4 & _ & H).
    apply bind_inr_inv in H as (pm3 & w5 & _ & H).
    apply bind_inr_inv in H as (pm4 & w5' & _ & H).
    apply bind_inr_inv in H as ([] & w6 & H6 & H).
    injection H6 as <-.
    match type of H with ?m ?w = _ =>
      assert (Hk : keeps_files w (m w).2)
    end.
    { apply preserves_bind; [apply _|apply write_record_keeps|intros _].
      apply preserves_for_each; [apply _|intros ex].
      apply process_example_keeps. }
    rewrite H in Hk. apply Hk. simpl. by rewrite lookup_insert_eq.
Qed.

Lemma run_checkpoints_done_files {E} args (tok : Tokenizer E) model exs cps
    (w w' : World E) :
  run_checkpoints args tok model exs cps w = (inr tt, w') ->
  forall c, c ∈ cps -> is_Some (fs w' !! output_file args c).
Proof.
  unfold run_checkpoints. revert w.
  induction cps as [|c0 cps IH]; intros w H c Hc; [by apply elem_of_nil in Hc|].
  simpl in H. apply bind_inr_inv in H as ([] & w1 & H1 & H).
  apply elem_of_cons in Hc as [->|Hc]; [|by eapply IH].
  apply eval_checkpoint_done_file in H1.
  pose proof (run_checkpoints_keeps args tok model exs cps w1 _ H1) as Hk.
  unfold run_checkpoints in Hk. by rewrite H in Hk.
Qed.

(** When every table exists, the loop only logs. *)
Lemma run_checkpoints_skip_all {E} args (tok : Tokenizer E) model exs cps
    (w : World E) :
  (forall c, c ∈ cps -> is_Some (fs w !! output_file args c)) ->
  exists w',
    run_checkpoints args tok model exs cps w = (inr tt, w') /\
    fs w' = fs w /\ stdout w' = stdout w /\ calls w' = calls w /\
    engine w' = engine w.
Proof.
  unfold run_checkpoints. revert w.
  induction cps as [|c cps IH]; intros w H; [by exists w|].
  simpl.
  rewrite (bind_step _ _ _ _ _ (eval_checkpoint_skip args tok model exs c w
             (H c ltac:(by left)))).
  match goal with |- context [for_each cps _ ?w1] =>
    destruct (IH w1) as (w' & Hrun & Hf & Ho & Hc & He)
  end.
  { intros c' Hc'. simpl. apply H. by right. }
  exists w'. by rewrite Hrun, Hf, Ho, Hc, He.
Qed.

Lemma same_calls_counts {E} (w w' : World E) :
  calls w' = calls w ->
  generation_calls w' = generation_calls w /\
  specialization_calls w' = specialization_calls w.
Proof.
  intros H. unfold generation_calls, specialization_calls. by rewrite H.
Qed.

(** The script run again after a run that ended normally. *)
Lemma main_rerun_quiet {E} (argv : list str) (w0 w1 w2 : World E) :
  main argv w0 = (inr tt, w1) -> fs w2 = fs w1 -> quiet w2 (main argv w2).2.
Proof.
  unfold main. destruct (parse_args argv) as [args| |]; [|done|done].
  intros H Hfs.
  apply bind_inr_inv in H as ([[tok model] exs] & wa & _ & H).
  apply bind_inr_inv in H as (cps & wb & Hit & H).
  unfold iter_checkpoints in Hit.
  destruct (checkpoints args) as [cps'|] eqn:Hcps; [|done].
  injection Hit as <- <-.
  pose proof (run_checkpoints_done_files _ _ _ _ _ _ _ H) as Hdone.
  pose proof (load_all_quiet args w2) as Hq.
  unfold bind. destruct (load_all args w2) as [[e|[[tok2 model2] exs2]] wc];
    [exact Hq|].
  unfold iter_checkpoints. rewrite Hcps. simpl in Hq |- *.
  destruct (run_checkpoints_skip_all args tok2 model2 exs2 cps' wc)
    as (w' & -> & Hf & _ & Hc & _).
  { intros c Hc. destruct Hq as [-> _]. rewrite Hfs. by apply Hdone. }
  etrans; [exact Hq|]. split; [done|]. by apply same_calls_counts.
Qed.

(** The scenario of the specification: the table of ["adapters/ckpt1"]
    under [beam10] is [eval/adapters-ckpt1.beam10.csv]. *)
Example output_file_scenario :
  output_file (mkNamespace [] None (u "eval") [] (u "beam10")) (u "adapters/ckpt1")
  = u "eval/adapters-ckpt1.beam10.csv".
Proof. vm_compute. reflexivity. Qed.

(** C1. The table of a checkpoint is at
    [output_dir/slug.preset.csv], the slug being the checkpoint with
    every ["/"] turned into ["-"]; a checkpoint whose table exists is
    skipped with two log lines and no other effect; and the script run
    again on the files left by a run that ended normally changes no file
    and makes no specialization and no generation call. *)
Theorem idempotent_skip {E} (args : Namespace) (tok : Tokenizer E)
    (model : Model E) (exs : list (Example E)) (c : str) (w : World E) :
  output_file args c =
    output_dir args ++ u "/" ++
    ((fun ch => if (ch =? 47)%N then 45%N else ch) <$> c) ++
    u "." ++ preset args ++ u ".csv"
  /\ (is_Some (fs w !! output_file args c) ->
      eval_checkpoint args tok model exs c w =
      (inr tt,
       mkWorld (fs w)
         (log w ++ [(INFO, u "Loading checkpoint " ++ c);
                    (INFO, u "Skipping " ++ c ++ u " - already exists")])
         (stdout w) (calls w) (engine w)))
  /\ (forall argv (w0 w1 : World E),
        main argv w0 = (inr tt, w1) -> fs w = fs w1 ->
        fs (main argv w).2 = fs w /\
        generation_calls (main argv w).2 = generation_calls w /\
        specialization_calls (main argv w).2 = specialization_calls w).
Proof.
  split; [|split].
  - unfold output_file. by rewrite slug_map.
  - apply eval_checkpoint_skip.
  - intros argv w0 w1 Hrun Hfs. by apply (main_rerun_quiet argv w0 w1 w).
Qed.

Lemma idempotent_skip_witness :
  let argv := [u "--checkpoints"; u "adapters/ckpt1"; u "--preset"; u "beam10"] in
  let w1 := (main argv Toy.world0).2 in
  main argv Toy.world0 = (inr tt, w1) /\
  is_Some (fs w1 !! u "eval/adapters-ckpt1.beam10.csv") /\
  fs (main argv w1).2 = fs w1 /\
  generation_calls (main argv w1).2 = generation_calls w1 /\
  specialization_calls (main argv w1).2 = specialization_calls w1.
Proof.
  intros argv w1. split; [vm_compute; reflexivity|].
  split; [vm_compute; eauto|].
  apply (proj2 (proj2 (@idempotent_skip Toy.env defaults tt [] [] [] w1))
           argv Toy.world0 w1); [vm_compute|]; reflexivity.
Defined.

(** ** Presets and checkpoints on the command line *)




(** Without [--checkpoints] the script fails when it takes the length of
    [None], before anything is loaded. *)
Lemma main_checkpoints_omitted {E} (w : World E) :
  main [] w = (inl TypeError, w).
Proof. reflexivity. Qed.




(** ** The rows of a table *)

Lemma append_rows_nil (p : str) (m : gmap str Table) :
  alter (fun t => t ++ []) p m = m.
Proof.
  apply map_eq. intros q. rewrite lookup_alter. case_decide; [|done].
  subst. destruct (m !! q); simpl; [|done]. by rewrite app_nil_r.
Qed.

Lemma append_rows_app (p : str) (a b : Table) (m : gmap str Table) :
  alter (fun t => t ++ b) p (alter (fun t => t ++ a) p m)
  = alter (fun t => t ++ (a ++ b)) p m.
Proof.
  apply map_eq. intros q. destruct (decide (p = q)) as [->|Hne].
  - rewrite !lookup_alter_eq. destruct (m !! q); simpl; [|done].
    by rewrite app_assoc.
  - by rewrite !lookup_alter_ne.
Qed.

Lemma external_inr_inv {E A}
    (f : EngineState E -> (EngineError E + A) * EngineState E) ev
    (w w1 : World E) (a : A) :
  external f ev w = (inr a, w1) ->
  exists st, f (engine w) = (inr a, st) /\
    w1 = mkWorld (fs w) (log w) (stdout w) (calls w ++ [ev (inr a)]) st.
Proof.
  unfold external. destruct (f (engine w)) as [[e|a'] st]; [done|].
  intros [= <- <-]. by exists st.
Qed.

Lemma external_inl_inv {E A}
    (f : EngineState E -> (EngineError E + A) * EngineState E) ev
    (w w1 : World E) (x : Exn E) :
  external f ev w = (inl x, w1) ->
  exists e st, f (engine w) = (inl e, st) /\ x = EngineRaised e /\
    w1 = mkWorld (fs w) (log w) (stdout w) (calls w ++ [ev (inl e)]) st.
Proof.
  unfold external. destruct (f (engine w)) as [[e|a'] st]; [|done].
  intros [= <- <-]. by exists e, st.
Qed.

(** One sequence: one row, no library call, no failure. *)
Lemma process_sequence_run {E} (tok : Tokenizer E) out ex s (w : World E) :
  exists w',
    process_sequence tok out ex s w = (inr tt, w') /\
    fs w' = alter (fun t => t ++ [row_of tok ex s]) out (fs w) /\
    calls w' = calls w /\ engine w' = engine w.
Proof.
  unfold process_sequence, row_of.
  pose proof (extract_unpacks (decode E tok s)) as Hu.
  destruct (extract (decode E tok s)) as [h| |]; [| |done];
    eexists; (split; [reflexivity|done]).
Qed.

Lemma process_sequences_run {E} (tok : Tokenizer E) out ex seqs (w : World E) :
  exists w',
    for_each seqs (process_sequence tok out ex) w = (inr tt, w') /\
    fs w' = alter (fun t => t ++ (row_of tok ex <$> seqs)) out (fs w) /\
    calls w' = calls w /\ engine w' = engine w.
Proof.
  revert w. induction seqs as [|s seqs IH]; intros w.
  - exists w. by rewrite append_rows_nil.
  - destruct (process_sequence_run tok out ex s w) as (w1 & H1 & Hf1 & Hc1 & He1).
    destruct (IH w1) as (w' & H' & Hf' & Hc' & He').
    exists w'. simpl. rewrite (bind_step _ _ _ _ _ H1), H'.
    split; [done|]. rewrite Hf', Hf1, append_rows_app, Hc', He'. done.
Qed.

(** One example whose generation returns: its rows, one recorded call. *)
Lemma process_example_returns {E} (tok : Tokenizer E) pm out beams ex
    (w : World E) seqs st :
  generate E pm (input_ids ex) 256
    (mkGenerationConfig (eos_token_id E tok) beams) (engine w) = (inr seqs, st) ->
  exists w',
    process_example tok pm out beams ex w = (inr tt, w') /\
    fs w' = alter (fun t => t ++ (row_of tok ex <$> seqs)) out (fs w) /\
    calls w' = calls w ++
      [EvGenerate pm (input_ids ex) 256
         (mkGenerationConfig (eos_token_id E tok) beams) (inr seqs)] /\
    engine w' = st.
Proof.
  intros Hg. unfold process_example, bind, external. rewrite Hg.
  match goal with |- context [for_each seqs _ ?w1] =>
    destruct (process_sequences_run tok out ex seqs w1) as (w' & H' & Hf & Hc & He)
  end.
  exists w'. by rewrite H', Hf, Hc, He.
Qed.

(** One example whose generation raises: the exception leaves the loop
    body, nothing is written. *)
Lemma process_example_raises {E} (tok : Tokenizer E) pm out beams ex
    (w : World E) e st :
  generate E pm (input_ids ex) 256
    (mkGenerationConfig (eos_token_id E tok) beams) (engine w) = (inl e, st) ->
  process_example tok pm out beams ex w =
  (inl (EngineRaised e),
   mkWorld (fs w) (log w) (stdout w)
     (calls w ++
        [EvGenerate pm (input_ids ex) 256
           (mkGenerationConfig (eos_token_id E tok) beams) (inl e)]) st).
Proof.
  intros Hg. unfold process_example, bind, external. by rewrite Hg.
Qed.

(** The loop over the examples, whether it ends or is left by an
    exception: the rows written are those of the examples whose
    generation returned, and an exception is that of the last call. *)
Lemma examples_loop {E} (tok : Tokenizer E) pm out beams exs (w w' : World E) r :
  for_each exs (process_example tok pm out beams) w = (r, w') ->
  exists seqss evs,
    calls w' = calls w ++ evs /\
    fs w' = alter (fun t => t ++ rows_of tok (zip exs seqss)) out (fs w) /\
    generations evs = zip (input_ids <$> exs) seqss /\
    match r with
    | inr _ => length seqss = length exs /\ Forall (fun ev => raised ev = None) evs
    | inl x =>
        length seqss < length exs /\
        exists evs0 m ids n cfg e,
          evs = evs0 ++ [EvGenerate m ids n cfg (inl e)] /\ x = EngineRaised e
    end.
Proof.
  revert w w' r. induction exs as [|ex exs IH]; intros w w' r H.
  - injection H as <- <-. exists [], []. rewrite app_nil_r.
    simpl. by rewrite append_rows_nil.
  - simpl in H.
    destruct (generate E pm (input_ids ex) 256
      (mkGenerationConfig (eos_token_id E tok) beams) (engine w))
      as [[e|seqs] st] eqn:Hg.
    + pose proof (process_example_raises tok pm out beams ex w e st Hg) as Hx.
      rewrite (bind_raise _ _ _ _ _ Hx) in H.
      injection H as <- <-.
      exists [], [EvGenerate pm (input_ids ex) 256
                    (mkGenerationConfig (eos_token_id E tok) beams) (inl e)].
      simpl.
      rewrite append_rows_nil. repeat split; [lia|].
      by exists [], pm, (input_ids ex), 256,
        (mkGenerationConfig (eos_token_id E tok) beams), e.
    + destruct (process_example_returns tok pm out beams ex w seqs st Hg)
        as (w1 & H1 & Hf1 & Hc1 & He1).
      rewrite (bind_step _ _ _ _ _ H1) in H.
      destruct (IH w1 w' r H) as (seqss & evs & Hc & Hf & Hgen & Hr).
      exists (seqs :: seqss),
        (EvGenerate pm (input_ids ex) 256
           (mkGenerationConfig (eos_token_id E tok) beams) (inr seqs) :: evs).
      rewrite Hc, Hc1, <- app_assoc. split; [done|].
      rewrite Hf, Hf1, append_rows_app. split; [done|].
      simpl. rewrite Hgen. split; [done|].
      destruct r as [x|[]].
      * destruct Hr as (Hlen & evs0 & m & ids & n & cfg & e & -> & ->).
        split; [simpl; lia|].
        by exists
          (EvGenerate pm (input_ids ex) 256
             (mkGenerationConfig (eos_token_id E tok) beams) (inr seqs) :: evs0),
          m, ids, n, cfg, e.
      * destruct Hr as [Hlen Hall]. split; [simpl; lia|].
        by constructor.
Qed.

(** The three ways the evaluation of one checkpoint goes: the table is
    there and the checkpoint is skipped; a specialization call raises
    before the table is opened; or the table is opened, the header is
    written, and the loop over the examples runs. *)
Lemma eval_checkpoint_inv {E} args (tok : Tokenizer E) model exs c
    (w w' : World E) r :
  eval_checkpoint args tok model exs c w = (r, w') ->
  (is_Some (fs w !! output_file args c) /\ r = inr tt /\
   fs w' = fs w /\ calls w' = calls w)
  \/ (fs w !! output_file args c = None /\
      exists evs ev x, r = inl x /\ fs w' = fs w /\
        calls w' = calls w ++ evs ++ [ev] /\ raised ev = None)
  \/ (fs w !! output_file args c = None /\
      exists seqss evs_s evs,
        calls w' = calls w ++ evs_s ++ evs /\
        Forall (fun ev => raised ev = None) evs_s /\
        generations (evs_s ++ evs) = zip (input_ids <$> exs) seqss /\
        fs w' = <[output_file args c := FIELDNAMES :: rows_of tok (zip exs seqss)]>
                  (fs w) /\
        match r with
        | inr _ => length seqss = length exs /\
                   Forall (fun ev => raised ev = None) evs
        | inl x =>
            length seqss < length exs /\
            exists evs0 m ids n cfg e,
              evs = evs0 ++ [EvGenerate m ids n cfg (inl e)] /\
              x = EngineRaised e
        end).
Proof.
  intros H. unfold eval_checkpoint in H.
  apply bind_inv in H as [(x & H1 & ->)|([] & w1 & H1 & H)]; [done|].
  injection H1 as <-.
  apply bind_inv in H as [(x & H2 & ->)|(present & w2 & H2 & H)]; [done|].
  injection H2 as <- <-. cbn [fs] in H. case_bool_decide as Hp.
  { left. by injection H as <- <-. }
  right. assert (Hnone : fs w !! output_file args c = None).
  { destruct (fs w !! output_file args c) eqn:Hl; [|done].
    destruct Hp. by eexists. }
  apply bind_inv in H as [(x & H3 & ->)|(pm1 & w3 & H3 & H)].
  { left. split; [done|].
    apply external_inl_inv in H3 as (e & st & _ & -> & ->).
    by exists [], (EvPeftFromPretrained model c), (EngineRaised e). }
  apply external_inr_inv in H3 as (st3 & _ & ->).
  apply bind_inv in H as [(x & H4 & ->)|(pm2 & w4 & H4 & H)].
  { left. split; [done|].
    apply external_inl_inv in H4 as (e & st & _ & -> & ->).
    exists [EvPeftFromPretrained model c], (EvMergeAndUnload pm1),
      (EngineRaised e).
    cbn [calls fs]. by rewrite <- !app_assoc. }
  apply external_inr_inv in H4 as (st4 & _ & ->).
  apply bind_inv in H as [(x & H5 & ->)|(pm3 & w5 & H5 & H)].
  { left. split; [done|].
    apply external_inl_inv in H5 as (e & st & _ & -> & ->).
    exists [EvPeftFromPretrained model c; EvMergeAndUnload pm1],
      (EvHalf pm2), (EngineRaised e).
    cbn [calls fs]. by rewrite <- !app_assoc. }
  apply external_inr_inv in H5 as (st5 & _ & ->).
  apply bind_inv in H as [(x & H5 & ->)|(pm4 & w5 & H5 & H)].
  { left. split; [done|].
    apply external_inl_inv in H5 as (e & st & _ & -> & ->).
    exists [EvPeftFromPretrained model c; EvMergeAndUnload pm1; EvHalf pm2],
      (EvCuda pm3), (EngineRaised e).
    cbn [calls fs]. by rewrite <- !app_assoc. }
  apply external_inr_inv in H5 as (st5' & _ & ->).
  apply bind_inv in H as [(x & H6 & ->)|([] & w6 & H6 & H)]; [done|].
  injection H6 as <-.
  apply bind_inv in H as [(x & H7 & ->)|([] & w7 & H7 & H)]; [done|].
  injection H7 as <-.
  apply (examples_loop tok pm4 (output_file args c)) in H
    as (seqss & evs & Hc & Hf & Hgen & Hr).
  right. split; [done|]. cbn [calls fs] in Hc, Hf.
  exists seqss,
    [EvPeftFromPretrained model c; EvMergeAndUnload pm1; EvHalf pm2; EvCuda pm3],
    evs.
  split; [by rewrite Hc, <- !app_assoc|].
  split; [by repeat constructor|].
  split; [exact Hgen|]. split; [|exact Hr].
  by rewrite Hf, append_rows_app, alter_insert_eq.
Qed.

(** C4. When the evaluation of a checkpoint whose table was absent runs
    to its end, the table is the header [id,source,reference,hypothesis]
    followed by the rows of the examples in dataset order, each example
    contributing one row per sequence its generation call returned, in
    the order returned; a row carries the id, source and reference of its
    example.  The sequences are those recorded for the generation calls
    of this evaluation, one call per example. *)
Theorem completed_table_rows {E} args (tok : Tokenizer E) model exs c
    (w w' : World E) :
  fs w !! output_file args c = None ->
  eval_checkpoint args tok model exs c w = (inr tt, w') ->
  exists seqss evs,
    calls w' = calls w ++ evs /\
    generations evs = zip (input_ids <$> exs) seqss /\
    length seqss = length exs /\
    fs w' !! output_file args c =
      Some ([u "id"; u "source"; u "reference"; u "hypothesis"]
            :: rows_of tok (zip exs seqss)).
Proof.
  intros Hnone H.
  apply eval_checkpoint_inv in H
    as [(Hs & _)|[(_ & evs & ev & x & Hx & _)|(_ & seqss & evs_s & evs & H)]].
  - rewrite Hnone in Hs. by destruct Hs.
  - done.
  - destruct H as (Hc & _ & Hgen & Hf & Hlen & _).
    exists seqss, (evs_s ++ evs).
    split; [done|]. split; [done|]. split; [done|].
    by rewrite Hf, lookup_insert_eq.
Qed.

Lemma completed_table_rows_witness :
  let args := mkNamespace (u "base") (Some [u "adapters/ckpt1"]) (u "eval")
                (u "data.csv") (u "greedy") in
  let w' := (@eval_checkpoint Toy.env args tt (u "base") [Toy.hello]
               (u "adapters/ckpt1") Toy.world0).2 in
  fs w' !! u "eval/adapters-ckpt1.greedy.csv" =
    Some [[u "id"; u "source"; u "reference"; u "hypothesis"];
          [u "1"; u "Hello"; Toy.PRYVIT; Toy.PRYVIT]] /\
  exists seqss evs,
    calls w' = calls Toy.world0 ++ evs /\
    generations evs = zip (input_ids <$> [Toy.hello]) seqss /\
    length seqss = length [Toy.hello] /\
    fs w' !! output_file args (u "adapters/ckpt1") =
      Some ([u "id"; u "source"; u "reference"; u "hypothesis"]
            :: rows_of (E := Toy.env) tt (zip [Toy.hello] seqss)).
Proof.
  intros args w'. split; [vm_compute; reflexivity|].
  apply (@completed_table_rows Toy.env args tt (u "base") [Toy.hello]
           (u "adapters/ckpt1") Toy.world0 w'); vm_compute; reflexivity.
Defined.

(** C5. For a decoded text without ["[/INST]"] the hypothesis written is
    the empty string, one warning that names the id of the example is
    logged, no exception is raised, and the loops go on: the remaining
    sequences are processed from the resulting world, and an example
    whose generation returned never ends the loop over the examples. *)
Theorem missing_marker_nonfatal {E} (tok : Tokenizer E) out ex s (w : World E) :
  contains INST_CLOSE (decode E tok s) = false ->
  let w1 :=
    mkWorld
      (alter (fun t => t ++ [[ex_id ex; orig ex; trans ex; []]]) out (fs w))
      (log w ++ [(WARNING,
                  u "Got invalid response for " ++ ex_id ex ++ u ": "
                  ++ decode E tok s)])
      (stdout w ++ [[]]) (calls w) (engine w) in
  extract (decode E tok s) = NoResponse /\
  process_sequence tok out ex s w = (inr tt, w1) /\
  (forall rest,
     for_each (s :: rest) (process_sequence tok out ex) w
     = for_each rest (process_sequence tok out ex) w1) /\
  (forall pm beams exs seqs st,
     generate E pm (input_ids ex) 256
       (mkGenerationConfig (eos_token_id E tok) beams) (engine w)
     = (inr seqs, st) ->
     exists w2,
       process_example tok pm out beams ex w = (inr tt, w2) /\
       for_each (ex :: exs) (process_example tok pm out beams) w
       = for_each exs (process_example tok pm out beams) w2).
Proof.
  intros Hc w1. pose proof (extract_missing _ Hc) as Hx.
  assert (Hp : process_sequence tok out ex s w = (inr tt, w1)).
  { unfold process_sequence. rewrite Hx. reflexivity. }
  split; [done|]. split; [done|]. split.
  - intros rest. simpl. by rewrite (bind_step _ _ _ _ _ Hp).
  - intros pm beams exs seqs st Hg.
    destruct (process_example_returns tok pm out beams ex w seqs st Hg)
      as (w2 & H2 & _).
    exists w2. split; [done|]. simpl. by rewrite (bind_step _ _ _ _ _ H2).
Qed.

Lemma missing_marker_nonfatal_witness :
  let w1 :=
    @mkWorld Toy.env
      (alter (fun t => t ++ [[u "1"; u "Hello"; Toy.PRYVIT; []]]) (u "out.csv")
         (fs Toy.world0))
      [(WARNING, u "Got invalid response for 1: [INST] Hel")]
      [[]] [] 0 in
  extract (u "[INST] Hel") = NoResponse /\
  @process_sequence Toy.env tt (u "out.csv") Toy.hello (u "[INST] Hel") Toy.world0
  = (inr tt, w1).
Proof.
  intros w1.
  destruct (@missing_marker_nonfatal Toy.env tt (u "out.csv") Toy.hello
              (u "[INST] Hel") Toy.world0 eq_refl) as (H1 & H2 & _).
  split; [exact H1|exact H2].
Defined.

Lemma snoc_raised {E} (l1 l2 : list (Event E)) (ev1 ev2 : Event E) :
  l1 ++ [ev1] = l2 ++ [ev2] -> raised ev1 = raised ev2.
Proof. by intros [_ ->]%app_inj_tail. Qed.




(** * Further properties *)

(** ** The hypothesis text *)

Lemma lstrip_head (s : str) (c : N) : head (lstrip s) = Some c -> isspace c = false.
Proof.
  induction s as [|x s IH]; simpl; [done|].
  destruct (isspace x) eqn:Hx; [exact IH|]. simpl. by intros [= <-].
Qed.

Lemma lstrip_suffix (s : str) : exists k, lstrip s = drop k s.
Proof.
  induction s as [|x s [k IH]]; [by exists 0|]. simpl.
  destruct (isspace x); [by exists (S k)|by exists 0].
Qed.

Lemma last_drop (k : nat) (s : str) (c : N) :
  last (drop k s) = Some c -> last s = Some c.
Proof.
  revert s. induction k as [|k IH]; intros s; [by rewrite drop_0|].
  destruct s as [|x s]; [done|]. simpl. intros H%IH.
  by rewrite last_cons, H.
Qed.

Lemma head_rev (s : str) : head (rev s) = last s.
Proof.
  induction s as [|x s _] using rev_ind; [done|].
  by rewrite rev_app_distr, last_snoc.
Qed.

Lemma last_rev (s : str) : last (rev s) = head s.
Proof. destruct s as [|x s]; [done|]. simpl. by rewrite last_snoc. Qed.

Lemma strip_ends (s : str) :
  (forall c, head (strip s) = Some c -> isspace c = false) /\
  (forall c, last (strip s) = Some c -> isspace c = false).
Proof.
  unfold strip, rstrip. split; intros c Hc.
  - rewrite head_rev in Hc.
    destruct (lstrip_suffix (rev (lstrip s))) as [k Hk].
    rewrite Hk in Hc. apply last_drop in Hc.
    rewrite last_rev in Hc. by apply lstrip_head in Hc.
  - rewrite last_rev in Hc. by apply lstrip_head in Hc.
Qed.

(** X1. A hypothesis produced by the extraction neither starts nor ends
    with a whitespace character. *)
Theorem hypothesis_trimmed (t h : str) :
  extract t = Response h ->
  (forall c, head h = Some c -> isspace c = false) /\
  (forall c, last h = Some c -> isspace c = false).
Proof.
  intros H. unfold extract in H.
  destruct (contains INST_CLOSE t); [|done].
  destruct (split1 INST_CLOSE t) as [|a [|b [|]]]; try done.
  injection H as <-. apply strip_ends.
Qed.

Lemma hypothesis_trimmed_witness :
  extract (u "[INST] Hi [/INST] <s>  ok then </s> ") = Response (u "ok then") /\
  (forall c, head (u "ok then") = Some c -> isspace c = false) /\
  (forall c, last (u "ok then") = Some c -> isspace c = false).
Proof.
  split; [reflexivity|].
  apply (hypothesis_trimmed (u "[INST] Hi [/INST] <s>  ok then </s> ")).
  reflexivity.
Defined.

(** ** The prompt inside the decoded text *)

Lemma startswith_app_l (m x y : str) :
  startswith m x = true -> startswith m (x ++ y) = true.
Proof.
  intros [t ->]%startswith_iff. rewrite <- app_assoc. apply startswith_app.
Qed.

(** A character foreign to the marker closes the search window: an
    occurrence starts inside a block exactly when it lies inside it. *)
Lemma startswith_block (m x : str) (sp : N) (rest : str) :
  m <> [] -> sp ∉ m ->
  startswith m (x ++ sp :: rest) = startswith m x.
Proof.
  intros Hne Hsp. destruct (startswith m x) eqn:Hx.
  - by apply startswith_app_l.
  - destruct (startswith m (x ++ sp :: rest)) eqn:Hs; [|done].
    apply startswith_app_inv in Hs as [Hs|(p2 & -> & Hp2 & Hs)]; [congruence|].
    destruct p2 as [|y p2]; [done|]. rewrite startswith_cons in Hs.
    destruct (N.eqb_spec y sp) as [->|_]; [|done].
    exfalso. apply Hsp. rewrite elem_of_app. right. by left.
Qed.

Lemma find_block (m a : str) (sp : N) (rest : str) :
  m <> [] -> sp ∉ m ->
  find m (a ++ sp :: rest) =
  match find m a with
  | Some i => Some i
  | None => (fun i => length a + 1 + i) <$> find m rest
  end.
Proof.
  intros Hne Hsp. induction a as [|c a IH].
  - rewrite (find_past_block m [] sp rest Hne Hsp); [|by destruct m].
    by destruct m.
  - change ((c :: a) ++ sp :: rest) with (c :: (a ++ sp :: rest)).
    rewrite !find_cons.
    change (c :: (a ++ sp :: rest)) with ((c :: a) ++ sp :: rest).
    rewrite startswith_block by done.
    destruct (startswith m (c :: a)); [done|]. rewrite IH.
    destruct (find m a); [done|]. by destruct (find m rest).
Qed.

(** X2. A decoded text that starts with the rendered prompt always
    contains the response marker, so it never takes the no-response
    branch. *)
Theorem rendered_prompt_found (s h : str) :
  contains INST_CLOSE (generate_prompt s ++ h) = true /\
  extract (generate_prompt s ++ h) <> NoResponse.
Proof.
  assert (Hc : contains INST_CLOSE (generate_prompt s ++ h) = true).
  { apply contains_iff. exists (u "[INST] " ++ s ++ [32%N]), h.
    unfold generate_prompt.
    change (u " [/INST]") with ([32%N] ++ INST_CLOSE).
    by rewrite <- !app_assoc. }
  split; [done|]. apply contains_true_find in Hc as [i Hi].
  by rewrite (extract_found _ i Hi).
Qed.

(** X3. When the source sentence itself contains the response marker, the
    extraction cuts at the first marker of the source: the hypothesis is
    made from the rest of the source, the closing of the template and the
    continuation. *)
Theorem source_marker_cuts_early (s h : str) :
  contains INST_CLOSE s = true ->
  extract (generate_prompt s ++ h) =
  Response
    (strip (replace (replace
       (suffix_after_first INST_CLOSE s ++ u " [/INST]" ++ h) BOS []) EOS [])).
Proof.
  intros [i Hi]%contains_true_find.
  assert (Hf : find INST_CLOSE (generate_prompt s ++ h) = Some (7 + i)).
  { replace (generate_prompt s ++ h)
      with (u "[INST]" ++ 32%N :: (s ++ 32%N :: (INST_CLOSE ++ h))).
    2:{ unfold generate_prompt.
        change (u "[INST] ") with (u "[INST]" ++ [32%N]).
        change (u " [/INST]") with (32%N :: INST_CLOSE).
        by rewrite <- !app_assoc. }
    rewrite find_block; [|done|apply INST_CLOSE_no_space].
    change (find INST_CLOSE (u "[INST]")) with (@None nat).
    rewrite find_block; [|done|apply INST_CLOSE_no_space].
    by rewrite Hi. }
  rewrite (extract_found _ _ Hf).
  unfold suffix_after_first. rewrite first_occurrence_find, Hi.
  do 4 f_equal. unfold generate_prompt.
  change (u "[INST] " ++ s ++ u " [/INST]")
    with (u "[INST] " ++ (s ++ u " [/INST]")).
  rewrite <- !app_assoc.
  replace (7 + i + length INST_CLOSE) with (length (u "[INST] ") + (i + 7))
    by (change (length (u "[INST] ")) with 7;
        change (length INST_CLOSE) with 7; lia).
  rewrite drop_app_add'; [|done].
  change (length INST_CLOSE) with 7.
  apply drop_app_le.
  apply find_Some_split in Hi. apply (f_equal length) in Hi.
  rewrite !length_app, length_take in Hi.
  change (length INST_CLOSE) with 7 in Hi. lia.
Qed.

Lemma source_marker_cuts_early_witness :
  extract (generate_prompt (u "say [/INST] twice") ++ u " ok</s>")
  = Response (u "twice [/INST] ok").
Proof.
  rewrite (source_marker_cuts_early (u "say [/INST] twice") (u " ok</s>"));
    reflexivity.
Defined.

(** ** Failures before the checkpoint loop *)

(** X4. Whatever the other options are, a command line without
    [--checkpoints] makes the script raise [TypeError] when it takes the
    number of checkpoints: nothing is logged, loaded or written. *)
Theorem omitted_checkpoints_type_error {E} (argv : list str) (args : Namespace)
    (w : World E) :
  parse_args argv = Parsed args -> checkpoints args = None ->
  main argv w = (inl TypeError, w).
Proof.
  intros Hp Hc. unfold main, bind, load_all, bind, len_checkpoints.
  by rewrite Hp, Hc.
Qed.

Lemma omitted_checkpoints_type_error_witness :
  main [u "--preset"; u "beam10"; u "--output-dir"; u "out"] Toy.world0
  = (inl TypeError, Toy.world0).
Proof.
  apply (omitted_checkpoints_type_error
           [u "--preset"; u "beam10"; u "--output-dir"; u "out"]
           (mkNamespace (u "mistralai/Mistral-7B-v0.1") None (u "out")
              (u "data/flores_eng_ukr_major.csv") (u "beam10")));
    reflexivity.
Defined.

(** X5. When the benchmark file does not exist, the script raises
    [FileNotFoundError] after the tokenizer has been loaded and before
    the base model is: the tokenizer is the only library call made, and
    no file is written. *)
Theorem missing_dataset_file {E} (argv : list str) (args : Namespace)
    (cps : list str) (w : World E) tok st :
  parse_args argv = Parsed args -> checkpoints args = Some cps ->
  tokenizer_from_pretrained E (base_model args) (engine w) = (inr tok, st) ->
  fs w !! dataset args = None ->
  main argv w =
  (inl (FileNotFoundError (dataset args)),
   mkWorld (fs w)
     (log w ++
      [(INFO, u "Got " ++ str_of_nat (length cps) ++ u " checkpoints to evaluate");
       (INFO, u "Loading tokenizer " ++ base_model args);
       (INFO, u "Loading dataset " ++ dataset args)])
     (stdout w)
     (calls w ++ [EvTokenizerFromPretrained (base_model args)]) st).
Proof.
  intros Hp Hc Ht Hf.
  unfold main, bind, load_all, bind, len_checkpoints, logger, external, open_read.
  rewrite Hp, Hc. cbn [ret fs log stdout calls engine]. rewrite Ht.
  cbn [fs log stdout calls engine]. rewrite Hf.
  by rewrite <- !app_assoc.
Qed.

Lemma missing_dataset_file_witness :
  (main [u "--checkpoints"; u "a"; u "--dataset"; u "nowhere.csv"] Toy.world0).1
  = inl (FileNotFoundError (u "nowhere.csv")) /\
  calls (main [u "--checkpoints"; u "a"; u "--dataset"; u "nowhere.csv"]
           Toy.world0).2
  = [EvTokenizerFromPretrained (u "mistralai/Mistral-7B-v0.1")].
Proof.
  rewrite (missing_dataset_file
             [u "--checkpoints"; u "a"; u "--dataset"; u "nowhere.csv"]
             (mkNamespace (u "mistralai/Mistral-7B-v0.1") (Some [u "a"])
                (u "eval") (u "nowhere.csv") (u "greedy"))
             [u "a"] Toy.world0 Toy.tokenizer 1);
    [split| | | |]; reflexivity.
Defined.

(** X6. Any failure while loading (the tokenizer, the benchmark file, a
    row, the base model) ends the script with that exception before the
    checkpoint loop: no file is written and no specialization or
    generation call is made. *)
Theorem load_failure_ends_script {E} (argv : list str) (args : Namespace)
    (w w1 : World E) e :
  parse_args argv = Parsed args -> load_all args w = (inl e, w1) ->
  main argv w = (inl e, w1) /\
  fs w1 = fs w /\
  generation_calls w1 = generation_calls w /\
  specialization_calls w1 = specialization_calls w.
Proof.
  intros Hp Hl. split.
  - unfold main, bind. by rewrite Hp, Hl.
  - pose proof (load_all_quiet args w) as Hq. by rewrite Hl in Hq.
Qed.


(** One row loaded: the example carries the three columns of the row and
    the prompt rendered from the source sentence, and the tokenizer was
    called once, on that prompt. *)
Lemma load_row_inv {E} (tok : Tokenizer E) d ex (w w' : World E) :
  load_row tok d w = (inr ex, w') ->
  (d !! u "id" = Some (ex_id ex) /\
   d !! u "sentence_eng_Latn" = Some (orig ex) /\
   d !! u "sentence_ukr_Cyrl" = Some (trans ex) /\
   prompt ex = generate_prompt (orig ex)) /\
  calls w' = calls w ++ [EvTokenize (prompt ex)].
Proof.
  intros H1. unfold load_row in H1.
  apply bind_inr_inv in H1 as (src & wa & Hsrc & H1).
  apply bind_inr_inv in H1 as (ids & wb & Hids & H1).
  apply bind_inr_inv in H1 as (i & wc & Hi & H1).
  apply bind_inr_inv in H1 as (o & wd & Ho & H1).
  apply bind_inr_inv in H1 as (t & we & Ht & H1).
  injection H1 as <- <-.
  unfold getitem in Hsrc, Hi, Ho, Ht.
  destruct (d !! u "sentence_eng_Latn") as [src'|] eqn:Hsrc'; [|done].
  injection Hsrc as -> <-. injection Ho as <- <-.
  destruct (d !! u "id") as [i'|] eqn:Hi'; [|done]. injection Hi as -> <-.
  destruct (d !! u "sentence_ukr_Cyrl") as [t'|] eqn:Ht'; [|done].
  injection Ht as -> <-.
  by apply external_inr_inv in Hids as (st & _ & ->).
Qed.

(** X7. When the loop over the rows of the benchmark ends, the examples
    are those of the rows, in order: each example carries the three
    columns of its row and the prompt rendered from its source sentence,
    and the tokenizer was called once per row, in order, on that
    prompt. *)
Theorem load_rows_ok {E} (tok : Tokenizer E) rows exs (w w' : World E) :
  map_each rows (load_row tok) w = (inr exs, w') ->
  Forall2 (fun d ex =>
             d !! u "id" = Some (ex_id ex) /\
             d !! u "sentence_eng_Latn" = Some (orig ex) /\
             d !! u "sentence_ukr_Cyrl" = Some (trans ex) /\
             prompt ex = generate_prompt (orig ex))
          rows exs /\
  calls w' = calls w ++ ((fun ex => EvTokenize (prompt ex)) <$> exs).
Proof.
  revert exs w. induction rows as [|d rows IH]; intros exs w H.
  - injection H as <- <-. split; [constructor|]. by rewrite app_nil_r.
  - simpl in H.
    apply bind_inr_inv in H as (ex & w1 & H1 & H).
    apply bind_inr_inv in H as (exs' & w2 & H2 & H).
    injection H as <- <-.
    destruct (IH _ _ H2) as [Hall Hc].
    apply load_row_inv in H1 as [Hd Hc1].
    split; [by constructor|].
    rewrite Hc, Hc1. simpl. by rewrite <- app_assoc.
Qed.

Lemma load_rows_ok_witness :
  let rows := dict_reader Toy.benchmark in
  let w' := (map_each rows (load_row Toy.tokenizer) Toy.world0).2 in
  map_each rows (load_row Toy.tokenizer) Toy.world0 = (inr [Toy.hello], w') /\
  Forall2 (fun d ex =>
             d !! u "id" = Some (ex_id ex) /\
             d !! u "sentence_eng_Latn" = Some (orig ex) /\
             d !! u "sentence_ukr_Cyrl" = Some (trans ex) /\
             prompt ex = generate_prompt (orig ex))
          rows [Toy.hello] /\
  calls w' = calls Toy.world0 ++ ((fun ex => EvTokenize (prompt ex)) <$> [Toy.hello]).
Proof.
  intros rows w'.
  assert (H : map_each rows (load_row Toy.tokenizer) Toy.world0
              = (inr [Toy.hello], w')) by (vm_compute; reflexivity).
  split; [exact H|]. exact (load_rows_ok Toy.tokenizer rows [Toy.hello] _ _ H).
Defined.



Lemma load_failure_ends_script_witness :
  let argv := [u "--checkpoints"; u "a"; u "--dataset"; u "nowhere.csv"] in
  let args := mkNamespace (u "mistralai/Mistral-7B-v0.1") (Some [u "a"])
                (u "eval") (u "nowhere.csv") (u "greedy") in
  let w1 := (load_all args Toy.world0).2 in
  main argv Toy.world0 = (inl (FileNotFoundError (u "nowhere.csv")), w1) /\
  fs w1 = fs Toy.world0 /\
  generation_calls w1 = generation_calls Toy.world0 /\
  specialization_calls w1 = specialization_calls Toy.world0.
Proof.
  intros argv args w1.
  apply (load_failure_ends_script argv args Toy.world0 w1); reflexivity.
Defined.

(** ** Files written by a run *)

Global Instance protects_preorder {E} : PreOrder (@protects E).
Proof.
  split.
  - by intros w p t.
  - intros w1 w2 w3 H1 H2 p t Hp. by apply H2, H1.
Qed.

Lemma eval_checkpoint_protects {E} args (tok : Tokenizer E) model exs c :
  preserves protects (eval_checkpoint args tok model exs c).
Proof.
  intros w p t Hp.
  destruct (eval_checkpoint args tok model exs c w) as [r w'] eqn:H. simpl.
  apply eval_checkpoint_inv in H
    as [(_ & _ & Hf & _)|[(_ & evs & ev & x & _ & Hf & _)
       |(Hnone & seqss & evs_s & evs & _ & _ & _ & Hf & _)]].
  - by rewrite Hf.
  - by rewrite Hf.
  - rewrite Hf, lookup_insert_ne; [done|].
    intros Heq. rewrite <- Heq in Hp. congruence.
Qed.

(** A relation kept by loading and by the checkpoint loop is kept by the
    script. *)
Lemma main_frame {E} (R : relation (World E)) `{!PreOrder R} (argv : list str) :
  (forall args, preserves R (load_all args)) ->
  (forall args tok model exs cps,
     parse_args argv = Parsed args -> checkpoints args = Some cps ->
     preserves R (run_checkpoints args tok model exs cps)) ->
  preserves R (main argv).
Proof.
  intros Hl Hr w. unfold main.
  destruct (parse_args argv) as [args| |] eqn:Hp; [|reflexivity..].
  unfold bind. pose proof (Hl args w) as H1.
  destruct (load_all args w) as [[e|[[tok model] exs]] w1]; simpl in *; [done|].
  unfold iter_checkpoints. destruct (checkpoints args) as [cps|] eqn:Hc; simpl.
  - etrans; [exact H1|]. apply (Hr args tok model exs cps eq_refl Hc w1).
  - exact H1.
Qed.

Lemma quiet_protects {E} (w w' : World E) : quiet w w' -> protects w w'.
Proof. intros [Hf _] p t. by rewrite Hf. Qed.

(** X9. The script never changes or removes a file that exists when it
    starts: a table is opened for writing only when no file is at its
    path. *)
Theorem existing_files_untouched {E} (argv : list str) (w : World E) p t :
  fs w !! p = Some t -> fs (main argv w).2 !! p = Some t.
Proof.
  revert p t. change (protects w (main argv w).2). revert w.
  apply main_frame; [apply _| |].
  - intros args w. apply quiet_protects, load_all_quiet.
  - intros args tok model exs cps _ _.
    apply preserves_for_each; [apply _|]. intros c.
    apply eval_checkpoint_protects.
Qed.

Lemma existing_files_untouched_witness :
  fs (main [u "--checkpoints"; u "a"; u "--output-dir"; u "data"] Toy.world0).2
    !! u "data/flores_eng_ukr_major.csv"
  = Some Toy.benchmark.
Proof.
  apply (existing_files_untouched
           [u "--checkpoints"; u "a"; u "--output-dir"; u "data"] Toy.world0).
  reflexivity.
Defined.

Lemma run_checkpoints_elsewhere {E} args (tok : Tokenizer E) model exs cps
    (w : World E) p :
  (forall c, c ∈ cps -> p <> output_file args c) ->
  fs (run_checkpoints args tok model exs cps w).2 !! p = fs w !! p.
Proof.
  unfold run_checkpoints. revert w.
  induction cps as [|c cps IH]; intros w Hp; [done|].
  simpl. unfold bind.
  pose proof (eval_checkpoint_touches args tok model exs c w p
                (Hp c ltac:(by left))) as Hc.
  destruct (eval_checkpoint args tok model exs c w) as [[e|[]] w1];
    simpl in *; [done|].
  rewrite IH; [done|]. intros c' Hc'. apply Hp. by right.
Qed.

(** X10. The only files a run may create are the tables of the listed
    checkpoints: a path that is the output path of none of them holds
    after the run what it held before. *)
Theorem writes_only_output_paths {E} (argv : list str) (args : Namespace)
    (cps : list str) (w : World E) p :
  parse_args argv = Parsed args -> checkpoints args = Some cps ->
  (forall c, c ∈ cps -> p <> output_file args c) ->
  fs (main argv w).2 !! p = fs w !! p.
Proof.
  intros Hp Hc Hout. unfold main, bind, iter_checkpoints. rewrite Hp.
  pose proof (load_all_quiet args w) as [Hf _].
  destruct (load_all args w) as [[e|[[tok model] exs]] w1]; simpl in *.
  - by rewrite Hf.
  - rewrite Hc. simpl. rewrite run_checkpoints_elsewhere by done. by rewrite Hf.
Qed.

Lemma writes_only_output_paths_witness :
  fs (main [u "--checkpoints"; u "a"; u "b"] Toy.world0).2
    !! u "data/flores_eng_ukr_major.csv"
  = Some Toy.benchmark.
Proof.
  rewrite (writes_only_output_paths [u "--checkpoints"; u "a"; u "b"]
             (set_checkpoints (Some [u "a"; u "b"]) defaults)
             [u "a"; u "b"] Toy.world0).
  - reflexivity.
  - reflexivity.
  - reflexivity.
  - intros c Hc. apply list_elem_of_In in Hc. simpl in Hc.
    destruct Hc as [<-|[<-|[]]]; vm_compute; discriminate.
Defined.

(** ** Slugs, skipping and resuming *)

(** X11. The slug of a checkpoint has the length of the checkpoint and
    contains no ["/"]: it is a single path segment. *)
Theorem slug_single_segment (c : str) :
  length (replace c (u "/") (u "-")) = length c /\
  contains (u "/") (replace c (u "/") (u "-")) = false.
Proof.
  rewrite slug_map. split; [by rewrite length_fmap|].
  destruct (contains _ _) eqn:Hc; [|done].
  change (u "/") with [47%N] in Hc. apply contains_head_elem in Hc.
  apply list_elem_of_fmap in Hc as (x & Hx & Hin).
  destruct (N.eqb_spec x 47) as [Heq|Hne]; [done|]. by symmetry in Hx.
Qed.

(** X12. Two checkpoints with the same slug share one table: once the
    first has been evaluated to the end, the second (a repetition, or a
    name that differs only in ["/"] against ["-"]) is skipped. *)
Theorem same_slug_skipped {E} args (tok : Tokenizer E) model exs c1 c2
    (w w1 : World E) :
  eval_checkpoint args tok model exs c1 w = (inr tt, w1) ->
  replace c1 (u "/") (u "-") = replace c2 (u "/") (u "-") ->
  eval_checkpoint args tok model exs c2 w1 =
  (inr tt,
   mkWorld (fs w1)
     (log w1 ++ [(INFO, u "Loading checkpoint " ++ c2);
                 (INFO, u "Skipping " ++ c2 ++ u " - already exists")])
     (stdout w1) (calls w1) (engine w1)).
Proof.
  intros H Hslug. apply eval_checkpoint_skip.
  apply eval_checkpoint_done_file in H.
  unfold output_file in *. by rewrite <- Hslug.
Qed.

Lemma same_slug_skipped_witness :
  let args := set_checkpoints (Some [u "a/b"; u "a-b"]) defaults in
  let w1 := (eval_checkpoint args Toy.tokenizer (Toy.model (u "base"))
               [Toy.hello] (u "a/b") Toy.world0).2 in
  calls (eval_checkpoint args Toy.tokenizer (Toy.model (u "base"))
           [Toy.hello] (u "a-b") w1).2 = calls w1.
Proof.
  intros args w1.
  rewrite (same_slug_skipped args Toy.tokenizer (Toy.model (u "base"))
             [Toy.hello] (u "a/b") (u "a-b") Toy.world0 w1);
    [reflexivity|vm_compute; reflexivity|reflexivity].
Defined.

(** When a generation call of an evaluation raised, the table of the
    checkpoint is on disk. *)
Lemma generation_raised_table_exists {E} args (tok : Tokenizer E) model exs c
    (w w' : World E) r evs pm ids n cfg e :
  eval_checkpoint args tok model exs c w = (r, w') ->
  calls w' = calls w ++ evs ++ [EvGenerate pm ids n cfg (inl e)] ->
  is_Some (fs w' !! output_file args c).
Proof.
  intros H Hcalls.
  apply eval_checkpoint_inv in H
    as [(_ & _ & _ & Hc)|[(_ & evs1 & ev & x & _ & _ & Hc & Hev)
       |(_ & seqss & evs_s & evs1 & _ & _ & _ & Hf & _)]].
  - rewrite Hc in Hcalls. apply (f_equal length) in Hcalls.
    rewrite !length_app in Hcalls. simpl in Hcalls. lia.
  - rewrite Hc in Hcalls. apply app_inv_head in Hcalls.
    apply snoc_raised in Hcalls. by rewrite Hev in Hcalls.
  - by rewrite Hf, lookup_insert_eq.
Qed.

(** X13. Resume hazard: after a generation call of the evaluation of a
    checkpoint has raised, the partial table is taken for a complete one.
    Evaluating the checkpoint again on those files, with any tokenizer,
    model and dataset, skips it. *)
Theorem partial_table_skipped {E} args (tok tok2 : Tokenizer E) model model2
    exs exs2 c (w w' w2 : World E) r evs pm ids n cfg e :
  eval_checkpoint args tok model exs c w = (r, w') ->
  calls w' = calls w ++ evs ++ [EvGenerate pm ids n cfg (inl e)] ->
  fs w2 = fs w' ->
  eval_checkpoint args tok2 model2 exs2 c w2 =
  (inr tt,
   mkWorld (fs w2)
     (log w2 ++ [(INFO, u "Loading checkpoint " ++ c);
                 (INFO, u "Skipping " ++ c ++ u " - already exists")])
     (stdout w2) (calls w2) (engine w2)).
Proof.
  intros H Hcalls Hfs. apply eval_checkpoint_skip. rewrite Hfs.
  by eapply generation_raised_table_exists.
Qed.

Lemma partial_table_skipped_witness :
  let args := set_checkpoints (Some [u "broken"]) defaults in
  let w' := (eval_checkpoint args Toy.tokenizer (Toy.model (u "base"))
               [Toy.hello] (u "broken") Toy.world0).2 in
  fs w' !! u "eval/broken.greedy.csv" = Some [FIELDNAMES] /\
  (eval_checkpoint args Toy.tokenizer (Toy.model (u "base")) [Toy.hello]
     (u "broken") w').1 = inr tt /\
  calls (eval_checkpoint args Toy.tokenizer (Toy.model (u "base")) [Toy.hello]
           (u "broken") w').2 = calls w'.
Proof.
  intros args w'. split; [vm_compute; reflexivity|].
  rewrite (partial_table_skipped args Toy.tokenizer Toy.tokenizer
             (Toy.model (u "base")) (Toy.model (u "base")) [Toy.hello]
             [Toy.hello] (u "broken") Toy.world0 w' w'
             (inl (EngineRaised Toy.oom))
             [EvPeftFromPretrained (Toy.model (u "base")) (u "broken");
              EvMergeAndUnload (Toy.model (u "broken"));
              EvHalf (Toy.model (u "broken"));
              EvCuda (Toy.model (u "broken"))]
             (Toy.model (u "broken")) (Toy.tokens (u "[INST] Hello [/INST]"))
             256 (mkGenerationConfig 2 1) Toy.oom);
    [by split|vm_compute; reflexivity..|reflexivity].
Defined.

(** X14. When the evaluation of a checkpoint whose table is absent ends
    with an exception and its last library call was not a generation
    (it was one of the four specialization calls), no file has been
    written: the table is still absent, so a later run evaluates the
    checkpoint again. *)
Theorem specialization_failure_writes_nothing {E} args (tok : Tokenizer E)
    model exs c (w w' : World E) x evs ev :
  eval_checkpoint args tok model exs c w = (inl x, w') ->
  calls w' = calls w ++ evs ++ [ev] -> is_generate ev = false ->
  fs w' = fs w /\ fs w' !! output_file args c = None.
Proof.
  intros H Hcalls Hev.
  apply eval_checkpoint_inv in H
    as [(_ & Hr & _)|[(Hnone & _ & _ & _ & _ & Hf & _)
       |(_ & seqss & evs_s & evs1 & Hc & _ & _ & _ & Hr)]].
  - done.
  - by rewrite Hf.
  - destruct Hr as (_ & evs0 & m & ids & n & cfg & e & -> & _).
    rewrite Hc in Hcalls. apply app_inv_head in Hcalls.
    rewrite app_assoc in Hcalls. apply app_inj_tail in Hcalls as [_ <-].
    done.
Qed.

Lemma specialization_failure_writes_nothing_witness :
  let args := set_checkpoints (Some [u "missing"]) defaults in
  let run := eval_checkpoint args ToyMissing.tokenizer (ToyMissing.model (u "base"))
               [ToyMissing.hello] (u "missing") ToyMissing.world0 in
  run.1 = inl (EngineRaised ToyMissing.not_found) /\
  fs run.2 = fs ToyMissing.world0 /\
  fs run.2 !! output_file args (u "missing") = None.
Proof.
  intros args run. split; [reflexivity|].
  apply (specialization_failure_writes_nothing args ToyMissing.tokenizer
           (ToyMissing.model (u "base")) [ToyMissing.hello] (u "missing")
           ToyMissing.world0 run.2 (EngineRaised ToyMissing.not_found) []
           (EvPeftFromPretrained (ToyMissing.model (u "base")) (u "missing")));
    reflexivity.
Defined.

(** X15. After a run that ends normally every listed checkpoint has its
    table on disk. *)
Theorem completed_run_tables {E} (argv : list str) (args : Namespace)
    (cps : list str) (w w' : World E) c :
  parse_args argv = Parsed args -> checkpoints args = Some cps ->
  main argv w = (inr tt, w') -> c ∈ cps ->
  is_Some (fs w' !! output_file args c).
Proof.
  intros Hp Hc H Hin. unfold main in H. rewrite Hp in H.
  apply bind_inr_inv in H as ([[tok model] exs] & wa & _ & H).
  apply bind_inr_inv in H as (cps' & wb & Hit & H).
  unfold iter_checkpoints in Hit. rewrite Hc in Hit. injection Hit as <- <-.
  by eapply run_checkpoints_done_files.
Qed.

Lemma completed_run_tables_witness :
  is_Some (fs (main [u "--checkpoints"; u "a"; u "mute"] Toy.world0).2
             !! output_file (set_checkpoints (Some [u "a"; u "mute"]) defaults)
                  (u "mute")).
Proof.
  apply (completed_run_tables [u "--checkpoints"; u "a"; u "mute"]
           (set_checkpoints (Some [u "a"; u "mute"]) defaults)
           [u "a"; u "mute"] Toy.world0 _ (u "mute"));
    [reflexivity|reflexivity|vm_compute; reflexivity|].
  apply list_elem_of_In. simpl. auto.
Defined.

(** ** Library calls of the checkpoint loop *)

Global Instance emits_preorder {E} (P : Event E -> Prop) : PreOrder (emits P).
Proof.
  split.
  - intros w. exists []. by rewrite app_nil_r.
  - intros w1 w2 w3 (evs1 & H1 & Hall1) (evs2 & H2 & Hall2).
    exists (evs1 ++ evs2). rewrite H2, H1, <- app_assoc.
    split; [done|]. by apply Forall_app.
Qed.

Lemma same_calls_emits {E} (P : Event E -> Prop) (w w' : World E) :
  calls w' = calls w -> emits P w w'.
Proof. intros H. exists []. by rewrite app_nil_r. Qed.

Lemma external_emits {E A} (P : Event E -> Prop)
    (f : EngineState E -> (EngineError E + A) * EngineState E) ev :
  (forall r, P (ev r)) -> preserves (emits P) (external f ev).
Proof.
  intros HP w. exists [ev (f (engine w)).1].
  rewrite external_calls. split; [done|]. by apply Forall_singleton.
Qed.

Lemma preserves_for_each_in {E A} (R : relation (World E)) `{!PreOrder R}
    (l : list A) (body : A -> M E unit) :
  (forall x, x ∈ l -> preserves R (body x)) -> preserves R (for_each l body).
Proof.
  induction l as [|x l IH]; intros Hb.
  - by apply preserves_ret.
  - apply preserves_bind; [apply _|apply Hb; by left|intros _].
    apply IH. intros y Hy. apply Hb. by right.
Qed.

Lemma process_sequence_emits {E} (P : Event E -> Prop) (tok : Tokenizer E)
    out ex s :
  preserves (emits P) (process_sequence tok out ex s).
Proof.
  intros w. destruct (process_sequence_run tok out ex s w) as (w' & -> & _ & Hc & _).
  by apply same_calls_emits.
Qed.

Lemma eval_checkpoint_emits {E} args (tok : Tokenizer E) model exs cps c :
  c ∈ cps ->
  preserves (emits (loop_call args tok model exs cps))
    (eval_checkpoint args tok model exs c).
Proof.
  intros Hc. unfold eval_checkpoint.
  apply preserves_bind; [apply _|by intros w; apply same_calls_emits|intros _].
  apply preserves_bind; [apply _|by intros w; apply same_calls_emits|intros [|]].
  { by intros w; apply same_calls_emits. }
  apply preserves_bind; [apply _|by apply external_emits|intros pm1].
  apply preserves_bind; [apply _|by apply external_emits|intros pm2].
  apply preserves_bind; [apply _|by apply external_emits|intros pm3].
  apply preserves_bind; [apply _|by apply external_emits|intros pm4].
  apply preserves_bind; [apply _|by intros w; apply same_calls_emits|intros _].
  apply preserves_bind; [apply _|by intros w; apply same_calls_emits|intros _].
  apply preserves_for_each_in; [apply _|]. intros ex Hex.
  unfold process_example.
  apply preserves_bind; [apply _| |intros seqs].
  - apply external_emits. intros r. simpl. split; [|done].
    apply list_elem_of_fmap. by exists ex.
  - apply preserves_for_each; [apply _|]. intros s.
    apply process_sequence_emits.
Qed.

(** X16. Every library call of the checkpoint loop has the shape the
    script gives it: each specialization starts from the one base model
    that was loaded (never from a merged model) and from a listed
    checkpoint; each generation is asked for the tokens of an example of
    the dataset with 256 new tokens, the tokenizer's end-of-sequence id
    as padding and the beam count of the preset; and nothing is loaded
    or tokenized inside the loop. *)
Theorem loop_calls_well_formed {E} args (tok : Tokenizer E) model exs cps
    (w : World E) :
  exists evs,
    calls (run_checkpoints args tok model exs cps w).2 = calls w ++ evs /\
    Forall (loop_call args tok model exs cps) evs.
Proof.
  revert w. change (preserves (emits (loop_call args tok model exs cps))
                      (run_checkpoints args tok model exs cps)).
  apply preserves_for_each_in; [apply _|]. intros c Hc.
  by apply eval_checkpoint_emits.
Qed.

(** ** Cost and shape of a completed evaluation *)

Lemma counts_snoc {E} (w w' : World E) (ev : Event E) :
  calls w' = calls w ++ [ev] ->
  generation_calls w' = generation_calls w + (if is_generate ev then 1 else 0) /\
  specialization_calls w' =
    specialization_calls w + (if is_specialize ev then 1 else 0).
Proof.
  intros H. unfold generation_calls, specialization_calls.
  rewrite H, !List.filter_app, !length_app. simpl.
  by destruct (is_generate ev), (is_specialize ev).
Qed.

Lemma examples_loop_counts {E} (tok : Tokenizer E) pm out beams exs
    (w w' : World E) :
  for_each exs (process_example tok pm out beams) w = (inr tt, w') ->
  generation_calls w' = generation_calls w + length exs /\
  specialization_calls w' = specialization_calls w.
Proof.
  revert w. induction exs as [|ex exs IH]; intros w H.
  - injection H as <-. simpl. lia.
  - simpl in H. apply bind_inr_inv in H as ([] & w1 & H1 & H).
    destruct (generate E pm (input_ids ex) 256
      (mkGenerationConfig (eos_token_id E tok) beams) (engine w))
      as [[e|seqs] st] eqn:Hg.
    + by rewrite (process_example_raises tok pm out beams ex w e st Hg) in H1.
    + destruct (process_example_returns tok pm out beams ex w seqs st Hg)
        as (w1' & H1' & _ & Hc & _).
      rewrite H1' in H1. injection H1 as ->.
      apply counts_snoc in Hc as [Hg1 Hs1]. simpl in Hg1, Hs1.
      destruct (IH _ H) as [Hg2 Hs2]. simpl. lia.
Qed.

(** X17. An evaluation that runs to its end for a checkpoint whose table
    was absent makes exactly one generation call per example and exactly
    four specialization calls. *)
Theorem completed_evaluation_cost {E} args (tok : Tokenizer E) model exs c
    (w w' : World E) :
  fs w !! output_file args c = None ->
  eval_checkpoint args tok model exs c w = (inr tt, w') ->
  generation_calls w' = generation_calls w + length exs /\
  specialization_calls w' = specialization_calls w + 4.
Proof.
  intros Hnone H. unfold eval_checkpoint in H.
  apply bind_inr_inv in H as ([] & w1 & H1 & H). injection H1 as <-.
  apply bind_inr_inv in H as (present & w2 & H2 & H).
  injection H2 as <- <-. cbn [fs] in H.
  rewrite bool_decide_eq_false_2 in H
    by (rewrite Hnone; by intros [? ?]).
  apply bind_inr_inv in H as (pm1 & w3 & H3 & H).
  apply external_inr_inv in H3 as (st3 & _ & ->).
  apply bind_inr_inv in H as (pm2 & w4 & H4 & H).
  apply external_inr_inv in H4 as (st4 & _ & ->).
  apply bind_inr_inv in H as (pm3 & w5 & H5 & H).
  apply external_inr_inv in H5 as (st5 & _ & ->).
  apply bind_inr_inv in H as (pm4 & w6 & H6 & H).
  apply external_inr_inv in H6 as (st6 & _ & ->).
  apply bind_inr_inv in H as ([] & w7 & H7 & H). injection H7 as <-.
  apply bind_inr_inv in H as ([] & w8 & H8 & H). injection H8 as <-.
  apply examples_loop_counts in H as [Hg Hs].
  rewrite Hg, Hs. unfold generation_calls, specialization_calls.
  cbn [calls]. rewrite !List.filter_app, !length_app. simpl. lia.
Qed.

Lemma completed_evaluation_cost_witness :
  let args := set_checkpoints (Some [u "a"]) defaults in
  let w' := (eval_checkpoint args Toy.tokenizer (Toy.model (u "base"))
               [Toy.hello; Toy.hello] (u "a") Toy.world0).2 in
  generation_calls w' = generation_calls Toy.world0 + 2 /\
  specialization_calls w' = specialization_calls Toy.world0 + 4.
Proof.
  intros args w'.
  apply (completed_evaluation_cost args Toy.tokenizer (Toy.model (u "base"))
           [Toy.hello; Toy.hello] (u "a") Toy.world0 w');
    vm_compute; reflexivity.
Defined.

Lemma zip_snd_all {A B} (P : B -> Prop) (l : list A) (k : list B) :
  length k = length l -> Forall (fun g => P g.2) (zip l k) -> Forall P k.
Proof.
  revert k. induction l as [|a l IH]; intros [|b k]; simpl; try done.
  intros [= Hlen] Hall. apply Forall_cons in Hall as [Hb Hall].
  constructor; [done|]. by apply IH.
Qed.

Lemma rows_of_single {E} (tok : Tokenizer E) exs (seqss : list (list (Tokens E))) :
  length seqss = length exs ->
  Forall (fun seqs => length seqs = 1) seqss ->
  take 3 <$> rows_of tok (zip exs seqss)
  = (fun ex => [ex_id ex; orig ex; trans ex]) <$> exs.
Proof.
  revert seqss. induction exs as [|ex exs IH]; intros [|seqs seqss]; try done.
  simpl. intros [= Hlen] Hall. apply Forall_cons in Hall as [Hs Hall].
  destruct seqs as [|s [|]]; try done. simpl. f_equal. by apply IH.
Qed.

(** X18. When every generation call of a completed evaluation returned
    exactly one sequence, the table is aligned with the dataset: after
    the header it has one row per example, in dataset order, whose first
    three fields are the id, source and reference of that example. *)
Theorem single_sequence_table_aligned {E} args (tok : Tokenizer E) model exs c
    (w w' : World E) evs :
  fs w !! output_file args c = None ->
  eval_checkpoint args tok model exs c w = (inr tt, w') ->
  calls w' = calls w ++ evs ->
  Forall (fun g => length g.2 = 1) (generations evs) ->
  exists rows,
    fs w' !! output_file args c = Some (FIELDNAMES :: rows) /\
    length rows = length exs /\
    take 3 <$> rows = (fun ex => [ex_id ex; orig ex; trans ex]) <$> exs.
Proof.
  intros Hnone H Hcalls Hone.
  apply eval_checkpoint_inv in H
    as [(Hs & _)|[(_ & evs1 & ev & x & Hx & _)
       |(_ & seqss & evs_s & evs1 & Hc & _ & Hgen & Hf & Hlen & _)]].
  - rewrite Hnone in Hs. by destruct Hs.
  - done.
  - rewrite Hc in Hcalls. apply app_inv_head in Hcalls. subst evs.
    rewrite Hgen in Hone.
    apply (zip_snd_all (fun seqs : list (Tokens E) => length seqs = 1)) in Hone;
      [|by rewrite length_fmap].
    exists (rows_of tok (zip exs seqss)).
    split; [by rewrite Hf, lookup_insert_eq|].
    pose proof (rows_of_single tok exs seqss Hlen Hone) as Hrows.
    split; [|done].
    apply (f_equal length) in Hrows. by rewrite !length_fmap in Hrows.
Qed.

Lemma single_sequence_table_aligned_witness :
  let args := set_checkpoints (Some [u "a"]) defaults in
  let w' := (eval_checkpoint args Toy.tokenizer (Toy.model (u "base"))
               [Toy.hello] (u "a") Toy.world0).2 in
  exists rows,
    fs w' !! output_file args (u "a") = Some (FIELDNAMES :: rows) /\
    length rows = length [Toy.hello] /\
    take 3 <$> rows = (fun ex => [ex_id ex; orig ex; trans ex]) <$> [Toy.hello].
Proof.
  intros args w'.
  apply (single_sequence_table_aligned args Toy.tokenizer (Toy.model (u "base"))
           [Toy.hello] (u "a") Toy.world0 w' (calls w'));
    [vm_compute; reflexivity..|].
  vm_compute. repeat constructor.
Defined.

(** ** Checkpoints on the command line *)

Lemma parse_collect (cs : list str) (ns : Namespace) (acc : list str) :
  checkpoints ns = Some acc ->
  Forall (fun c => option_like c = false) cs ->
  parse_loop cs Collect false ns = Parsed (set_checkpoints (Some (acc ++ cs)) ns).
Proof.
  revert ns acc. induction cs as [|c cs IH]; intros ns acc Hacc Hall.
  - simpl. rewrite app_nil_r. destruct ns. simpl in Hacc. by subst.
  - apply Forall_cons in Hall as [Hc Hall]. cbn [parse_loop]. rewrite Hc.
    rewrite (IH _ (acc ++ [c])); [|by unfold add_checkpoint; simpl; rewrite Hacc|done].
    by rewrite <- app_assoc.
Qed.

(** X19. The values given to [--checkpoints] become the list of
    checkpoints in the order they were written, and the other options
    keep their defaults. *)
Theorem checkpoints_in_order (cs : list str) :
  Forall (fun c => option_like c = false) cs ->
  parse_args (u "--checkpoints" :: cs) = Parsed (set_checkpoints (Some cs) defaults).
Proof.
  intros Hall. unfold parse_args.
  change (parse_loop (u "--checkpoints" :: cs) Idle false defaults)
    with (parse_loop cs Collect false (set_checkpoints (Some []) defaults)).
  by rewrite (parse_collect cs _ []).
Qed.

Lemma checkpoints_in_order_witness :
  parse_args [u "--checkpoints"; u "run/ckpt-200"; u "run/ckpt-100"]
  = Parsed (set_checkpoints (Some [u "run/ckpt-200"; u "run/ckpt-100"]) defaults).
Proof.
  apply (checkpoints_in_order [u "run/ckpt-200"; u "run/ckpt-100"]).
  by repeat constructor.
Defined.

(** ** Printed hypotheses *)

Global Instance mirrors_preorder {E} (out : str) : PreOrder (@mirrors E out).
Proof.
  split.
  - intros w. exists []. rewrite app_nil_r. split; [|done].
    destruct (fs w !! out); simpl; [|done]. by rewrite app_nil_r.
  - intros w1 w2 w3 (r1 & Hf1 & Ho1) (r2 & Hf2 & Ho2).
    exists (r1 ++ r2). rewrite Hf2, Hf1, Ho2, Ho1.
    rewrite fmap_app, <- app_assoc. split; [|done].
    destruct (fs w1 !! out); simpl; [|done]. by rewrite <- app_assoc.
Qed.







(** ** Tables of different presets *)

(** X21. With the same output directory and the same checkpoint, two
    presets share a table only when they are the same preset: the table
    written under one preset never makes the checkpoint skipped under
    another. *)
Theorem presets_have_separate_tables (args1 args2 : Namespace) (c : str) :
  output_dir args1 = output_dir args2 ->
  output_file args1 c = output_file args2 c ->
  preset args1 = preset args2.
Proof.
  unfold output_file. intros -> H.
  do 4 apply app_inv_head in H. by apply app_inv_tail in H.
Qed.

Lemma presets_have_separate_tables_witness :
  output_file (mkNamespace [] None (u "eval") [] (u "greedy")) (u "a/b")
  <> output_file (mkNamespace [] None (u "eval") [] (u "beam10")) (u "a/b").
Proof.
  intros H.
  apply (presets_have_separate_tables
           (mkNamespace [] None (u "eval") [] (u "greedy"))
           (mkNamespace [] None (u "eval") [] (u "beam10")) (u "a/b") eq_refl)
    in H.
  vm_compute in H. discriminate H.
Defined.
